(** * Choreo: the Spotify player-state synchronisation layer

    A shallow embedding of the two player sources of the repository:

    - [Player]: [lib/spotify/player.ts], the jotai-based hook
      [useSpotifyPlayer] together with [getSpotifyPlayer] and
      [wrapSpotifyPlayer];
    - [Legacy]: the earlier [useSpotifyPlayer]/[createWrappedPlayer] pair
      that keeps its subscriber arrays and its tick timer at module level.

    The browser and the Web Playback SDK are the environment.  Everything
    the code does to them is appended to a trace, every call that returns a
    promise leaves a continuation in [pending], and the environment settles
    those continuations, fires the SDK-ready signal and emits device events
    through explicit steps.  JavaScript is single-threaded, so each step
    runs one synchronous stretch of code to completion. *)

From Stdlib Require Import ZArith Lia DecimalString.
From stdpp Require Import base option list strings.
From stdpp Require Import gmap.

(** ** Values shared by both sources *)

(** [Token] is a string.  A [Handle] is the identity of a
    [Spotify.Player] object (its index in the table of constructed
    players), a [Callback] the identity of a subscriber closure, which
    JavaScript compares with [===], and a [PromiseId] the identity of a
    promise of a player. *)
Abbreviation Token := string.
Abbreviation Handle := nat.
Abbreviation Callback := nat.
Abbreviation PromiseId := nat.

Record Artist := { artist_name : string }.
Record Track := { track_name : string; artists : list Artist }.

(** [Spotify.PlaybackState], restricted to the fields the code reads:
    [paused], [position] and [track_window.current_track]. *)
Record PlaybackState := {
  paused : bool;
  position : Z;
  current_track : option Track }.

Inductive SpotifyPlayerStatus :=
| LOADING | NOT_CONNECTED | INIT_ERROR | AUTH_ERROR | ACCT_ERROR
| PLAYBACK_ERROR | READY.

Definition playerEvents : list string :=
  [ "player_state_changed"; "playback_error"; "initialization_error";
    "authentication_error"; "account_error"; "ready" ].

(** Events pushed by the device, with their payloads. *)
Inductive DeviceEvent :=
| player_state_changed (state : option PlaybackState)
| playback_error (message : string)
| initialization_error (message : string)
| authentication_error (message : string)
| account_error (message : string)
| ready (device_id : string).

Definition event_name (ev : DeviceEvent) : string :=
  match ev with
  | player_state_changed _ => "player_state_changed"
  | playback_error _ => "playback_error"
  | initialization_error _ => "initialization_error"
  | authentication_error _ => "authentication_error"
  | account_error _ => "account_error"
  | ready _ => "ready"
  end.

(** The payload as seen by a listener typed
    [(state: Spotify.PlaybackState | null) => void]. *)
Definition event_state (ev : DeviceEvent) : option PlaybackState :=
  match ev with
  | player_state_changed s => s
  | _ => None
  end.

(** What the SDK answers when it settles an outstanding call. *)
Inductive Response :=
| RBool (b : bool)
| RState (state : option PlaybackState)
| RVoid
| RReject.

Inductive Error := TypeError | UnhandledRejection.

(** ** JavaScript helpers *)

(** [for (const k in array)] enumerates the array's own enumerable keys,
    that is its indices written in decimal. *)
Definition for_in_keys {A} (arr : list A) : list string :=
  (λ i, NilZero.string_of_uint (Nat.to_uint i)) <$> seq 0 (length arr).

(** [for (const x of array)] enumerates the elements. *)
Definition for_of_values {A} (arr : list A) : list A := arr.

Fixpoint findIndex_from (i : Z) (callback : Callback) (arr : list Callback) : Z :=
  match arr with
  | [] => -1
  | cb :: arr' =>
      if Nat.eqb cb callback then i else findIndex_from (i + 1) callback arr'
  end.

(** [arr.findIndex((cb) => cb === callback)] *)
Definition findIndex (callback : Callback) (arr : list Callback) : Z :=
  findIndex_from 0 callback arr.

(** [arr.splice(index, 1)] for a non-negative [index]. *)
Definition splice1 {A} (index : Z) (arr : list A) : list A :=
  delete (Z.to_nat index) arr.

(** The body shared by [removeOnTick] and [removeOnStateChange]. *)
Definition remove_callback (callback : Callback) (arr : list Callback)
  : list Callback :=
  if (length arr =? 0)%nat then arr
  else
    let index := findIndex callback arr in
    if (index >? -1)%Z then splice1 index arr else arr.

(** ** The document *)

Record Element := { tag : string; id : string; src : string }.

Definition SPOTIFY_SCRIPT_ID : string := "spotify-sdk-script".
Definition SDK_SRC : string := "https://sdk.scdn.co/spotify-player.js".

Definition getElementById (i : string) (doc : list Element) : option Element :=
  head (filter (λ e, id e = i) doc).

Definition appendChild (e : Element) (doc : list Element) : list Element :=
  doc ++ [e].

Definition count_id (i : string) (doc : list Element) : nat :=
  length (filter (λ e, id e = i) doc).

Definition count_src (s : string) (doc : list Element) : nat :=
  length (filter (λ e, src e = s) doc).

(** ** Promises of a player *)

(** A promise of a wrapped player: its value once resolved, and the
    [.then] callbacks attached while it was pending.  ['K] is what tells
    two such callbacks apart. *)
Record PromiseState (K : Type) := {
  settled : option Handle;
  waiting : list K }.
Arguments settled {K} _.
Arguments waiting {K} _.

(** * [lib/spotify/player.ts] *)
Module Player.

(** The closures registered with [addListener]. *)
Inductive Listener :=
| stateChangeCallback
| onPlayerStateChanged
| onPlaybackError
| onInitializationError
| onAuthenticationError
| onAccountError
| onReady.

Global Instance Listener_eq_dec : EqDecision Listener.
Proof. solve_decision. Defined.

(** The object returned by [wrapSpotifyPlayer]: the SDK player (its
    connection flag and listener table) extended with [authToken] and the
    two arrays the wrapper closes over. *)
Record SpotifyPlayer := {
  authToken : Token;
  fake : bool;
  connected : bool;
  listeners : list (string * Listener);
  playbackCallbacks : list Callback;
  onTickCallbacks : list Callback }.

(** Effects on the environment, in program order.
    [ConsoleLogPlaybackError m] is the call
    [console.log(`playback error ${JSON.stringify(obj)}`)] for the error
    object [obj] whose [message] is [m]. *)
Inductive Call :=
| AppendScript (e : Element)
| NewSpotifyPlayer (h : Handle) (token : Token)
| GetFakePlayer (h : Handle)
| Connect (h : Handle)
| Disconnect (h : Handle)
| GetCurrentState (h : Handle)
| Seek (h : Handle) (position_ms : Z)
| Resume (h : Handle)
| AddListener (h : Handle) (event : string) (l : Listener)
| RemoveListener (h : Handle) (event : string)
| PlaybackListenerForTick (h : Handle) (paused : bool)
| PlaybackCallback (cb : Callback) (paused : bool)
| OnTick (cb : Callback) (timeMs : Z)
| CurrentTime (h : Handle) (timeMs : option Z)
| ConsoleLogPlaybackError (obj_message : string).

(** Code suspended on a promise of the SDK. *)
Inductive Cont :=
| KConnect (wp : Handle)
| KInitialState (wp : Handle)
| KSeek (h : Handle) (posTimeMs : Z)
| KTick (h : Handle)
| KAddOnTick (h : Handle) (cb : Callback)
| KGetCurrentTime (h : Handle).

Record World := {
  document : list Element;
  onSpotifyWebPlaybackSDKReady : option (Token * PromiseId);
  promises : list (PromiseState unit);
  players : list SpotifyPlayer;
  window_spotifyPlayer : option Handle;
  tokenAndPromise : option (Token * option PromiseId);
  spotifyPlayerAtom : option Handle;
  playerStatusAtom : SpotifyPlayerStatus;
  playbackStateAtom : option PlaybackState;
  pending : list Cont;
  uncaught : list Error;
  trace : list Call }.

(** A freshly loaded page: nothing in the document, [tokenAndPromise]
    still [undefined], the atoms at their initial values. *)
Definition init : World :=
  {| document := []; onSpotifyWebPlaybackSDKReady := None; promises := [];
     players := []; window_spotifyPlayer := None; tokenAndPromise := None;
     spotifyPlayerAtom := None; playerStatusAtom := LOADING;
     playbackStateAtom := None; pending := []; uncaught := []; trace := [] |}.

Definition set_document v (w : World) : World :=
  {| document := v;
     onSpotifyWebPlaybackSDKReady := onSpotifyWebPlaybackSDKReady w;
     promises := promises w; players := players w;
     window_spotifyPlayer := window_spotifyPlayer w;
     tokenAndPromise := tokenAndPromise w;
     spotifyPlayerAtom := spotifyPlayerAtom w;
     playerStatusAtom := playerStatusAtom w;
     playbackStateAtom := playbackStateAtom w;
     pending := pending w; uncaught := uncaught w; trace := trace w |}.

Definition set_onSpotifyWebPlaybackSDKReady v (w : World) : World :=
  {| document := document w;
     onSpotifyWebPlaybackSDKReady := v;
     promises := promises w; players := players w;
     window_spotifyPlayer := window_spotifyPlayer w;
     tokenAndPromise := tokenAndPromise w;
     spotifyPlayerAtom := spotifyPlayerAtom w;
     playerStatusAtom := playerStatusAtom w;
     playbackStateAtom := playbackStateAtom w;
     pending := pending w; uncaught := uncaught w; trace := trace w |}.

Definition set_promises v (w : World) : World :=
  {| document := document w;
     onSpotifyWebPlaybackSDKReady := onSpotifyWebPlaybackSDKReady w;
     promises := v; players := players w;
     window_spotifyPlayer := window_spotifyPlayer w;
     tokenAndPromise := tokenAndPromise w;
     spotifyPlayerAtom := spotifyPlayerAtom w;
     playerStatusAtom := playerStatusAtom w;
     playbackStateAtom := playbackStateAtom w;
     pending := pending w; uncaught := uncaught w; trace := trace w |}.

Definition set_players v (w : World) : World :=
  {| document := document w;
     onSpotifyWebPlaybackSDKReady := onSpotifyWebPlaybackSDKReady w;
     promises := promises w; players := v;
     window_spotifyPlayer := window_spotifyPlayer w;
     tokenAndPromise := tokenAndPromise w;
     spotifyPlayerAtom := spotifyPlayerAtom w;
     playerStatusAtom := playerStatusAtom w;
     playbackStateAtom := playbackStateAtom w;
     pending := pending w; uncaught := uncaught w; trace := trace w |}.

Definition set_window_spotifyPlayer v (w : World) : World :=
  {| document := document w;
     onSpotifyWebPlaybackSDKReady := onSpotifyWebPlaybackSDKReady w;
     promises := promises w; players := players w;
     window_spotifyPlayer := v;
     tokenAndPromise := tokenAndPromise w;
     spotifyPlayerAtom := spotifyPlayerAtom w;
     playerStatusAtom := playerStatusAtom w;
     playbackStateAtom := playbackStateAtom w;
     pending := pending w; uncaught := uncaught w; trace := trace w |}.

Definition set_tokenAndPromise v (w : World) : World :=
  {| document := document w;
     onSpotifyWebPlaybackSDKReady := onSpotifyWebPlaybackSDKReady w;
     promises := promises w; players := players w;
     window_spotifyPlayer := window_spotifyPlayer w;
     tokenAndPromise := v;
     spotifyPlayerAtom := spotifyPlayerAtom w;
     playerStatusAtom := playerStatusAtom w;
     playbackStateAtom := playbackStateAtom w;
     pending := pending w; uncaught := uncaught w; trace := trace w |}.

(** [setPlayer], [setStatus] and [setState]: the jotai setters. *)
Definition setPlayer v (w : World) : World :=
  {| document := document w;
     onSpotifyWebPlaybackSDKReady := onSpotifyWebPlaybackSDKReady w;
     promises := promises w; players := players w;
     window_spotifyPlayer := window_spotifyPlayer w;
     tokenAndPromise := tokenAndPromise w;
     spotifyPlayerAtom := v;
     playerStatusAtom := playerStatusAtom w;
     playbackStateAtom := playbackStateAtom w;
     pending := pending w; uncaught := uncaught w; trace := trace w |}.

Definition setStatus v (w : World) : World :=
  {| document := document w;
     onSpotifyWebPlaybackSDKReady := onSpotifyWebPlaybackSDKReady w;
     promises := promises w; players := players w;
     window_spotifyPlayer := window_spotifyPlayer w;
     tokenAndPromise := tokenAndPromise w;
     spotifyPlayerAtom := spotifyPlayerAtom w;
     playerStatusAtom := v;
     playbackStateAtom := playbackStateAtom w;
     pending := pending w; uncaught := uncaught w; trace := trace w |}.

Definition setState v (w : World) : World :=
  {| document := document w;
     onSpotifyWebPlaybackSDKReady := onSpotifyWebPlaybackSDKReady w;
     promises := promises w; players := players w;
     window_spotifyPlayer := window_spotifyPlayer w;
     tokenAndPromise := tokenAndPromise w;
     spotifyPlayerAtom := spotifyPlayerAtom w;
     playerStatusAtom := playerStatusAtom w;
     playbackStateAtom := v;
     pending := pending w; uncaught := uncaught w; trace := trace w |}.

Definition set_pending v (w : World) : World :=
  {| document := document w;
     onSpotifyWebPlaybackSDKReady := onSpotifyWebPlaybackSDKReady w;
     promises := promises w; players := players w;
     window_spotifyPlayer := window_spotifyPlayer w;
     tokenAndPromise := tokenAndPromise w;
     spotifyPlayerAtom := spotifyPlayerAtom w;
     playerStatusAtom := playerStatusAtom w;
     playbackStateAtom := playbackStateAtom w;
     pending := v; uncaught := uncaught w; trace := trace w |}.

Definition set_uncaught v (w : World) : World :=
  {| document := document w;
     onSpotifyWebPlaybackSDKReady := onSpotifyWebPlaybackSDKReady w;
     promises := promises w; players := players w;
     window_spotifyPlayer := window_spotifyPlayer w;
     tokenAndPromise := tokenAndPromise w;
     spotifyPlayerAtom := spotifyPlayerAtom w;
     playerStatusAtom := playerStatusAtom w;
     playbackStateAtom := playbackStateAtom w;
     pending := pending w; uncaught := v; trace := trace w |}.

Definition set_trace v (w : World) : World :=
  {| document := document w;
     onSpotifyWebPlaybackSDKReady := onSpotifyWebPlaybackSDKReady w;
     promises := promises w; players := players w;
     window_spotifyPlayer := window_spotifyPlayer w;
     tokenAndPromise := tokenAndPromise w;
     spotifyPlayerAtom := spotifyPlayerAtom w;
     playerStatusAtom := playerStatusAtom w;
     playbackStateAtom := playbackStateAtom w;
     pending := pending w; uncaught := uncaught w; trace := v |}.

(** Appending to the trace, suspending on an SDK promise, and reporting
    an exception nobody catches. *)
Definition log (c : Call) (w : World) : World := set_trace (trace w ++ [c]) w.
Definition await (k : Cont) (w : World) : World := set_pending (pending w ++ [k]) w.
Definition throw (e : Error) (w : World) : World := set_uncaught (uncaught w ++ [e]) w.

(** *** The derived atoms *)

(** [state ? state.paused : true] *)
Definition spotifyPausedAtom (w : World) : bool :=
  match playbackStateAtom w with
  | Some state => paused state
  | None => true
  end.

(** [get(playbackStateAtom)?.track_window.current_track] *)
Definition currenTrackAtom (w : World) : option Track :=
  match playbackStateAtom w with
  | Some state => current_track state
  | None => None
  end.

Definition spotifyArtistAtom (w : World) : string :=
  match currenTrackAtom w with
  | None => ""
  | Some track => String.concat ", " (artist_name <$> artists track)
  end.

Definition spotifyTrackNameAtom (w : World) : string :=
  match currenTrackAtom w with
  | Some track => track_name track
  | None => ""
  end.

(** *** The SDK player, as far as the code relies on it *)

Definition player_of (h : Handle) (w : World) : option SpotifyPlayer :=
  players w !! h.

Definition listeners_of (h : Handle) (w : World) : list (string * Listener) :=
  from_option listeners [] (player_of h w).

Definition onTickCallbacks_of (h : Handle) (w : World) : list Callback :=
  from_option onTickCallbacks [] (player_of h w).

Definition playbackCallbacks_of (h : Handle) (w : World) : list Callback :=
  from_option playbackCallbacks [] (player_of h w).

Definition is_connected (h : Handle) (w : World) : bool :=
  from_option connected false (player_of h w).

Definition with_connected (b : bool) (p : SpotifyPlayer) : SpotifyPlayer :=
  {| authToken := authToken p; fake := fake p; connected := b;
     listeners := listeners p; playbackCallbacks := playbackCallbacks p;
     onTickCallbacks := onTickCallbacks p |}.

Definition with_listeners (ls : list (string * Listener)) (p : SpotifyPlayer)
  : SpotifyPlayer :=
  {| authToken := authToken p; fake := fake p; connected := connected p;
     listeners := ls; playbackCallbacks := playbackCallbacks p;
     onTickCallbacks := onTickCallbacks p |}.

Definition with_onTickCallbacks (cbs : list Callback) (p : SpotifyPlayer)
  : SpotifyPlayer :=
  {| authToken := authToken p; fake := fake p; connected := connected p;
     listeners := listeners p; playbackCallbacks := playbackCallbacks p;
     onTickCallbacks := cbs |}.

Definition update_player (h : Handle) (f : SpotifyPlayer → SpotifyPlayer)
    (w : World) : World :=
  set_players (alter f h (players w)) w.

(** [player.addListener(event, l)] *)
Definition addListener (h : Handle) (event : string) (l : Listener) (w : World)
  : World :=
  log (AddListener h event l)
    (update_player h (λ p, with_listeners (listeners p ++ [(event, l)]) p) w).

(** [player.removeListener(event)]: without a callback argument the SDK
    drops every listener registered under that event name. *)
Definition removeListener (h : Handle) (event : string) (w : World) : World :=
  log (RemoveListener h event)
    (update_player h
       (λ p, with_listeners (filter (λ el, el.1 ≠ event) (listeners p)) p) w).

(** [player.disconnect()] *)
Definition disconnect (h : Handle) (w : World) : World :=
  log (Disconnect h) (update_player h (with_connected false) w).

(** *** [wrapSpotifyPlayer] *)

(** The wrapper's arrays start empty and [stateChangeCallback] is
    registered at once.  The player object being wrapped is the one the
    caller has just created, so it takes the next free handle. *)
Definition wrapSpotifyPlayer (is_fake : bool) (authToken : Token) (w : World)
  : Handle * World :=
  let h := length (players w) in
  let wp := {| authToken := authToken; fake := is_fake; connected := false;
               listeners := []; playbackCallbacks := [];
               onTickCallbacks := [] |} in
  (h, addListener h "player_state_changed" stateChangeCallback
        (set_players (players w ++ [wp]) w)).

(** [for (const cb of onTickCallbacks) cb(timeMs)] *)
Definition call_onTickCallbacks (h : Handle) (timeMs : Z) (w : World) : World :=
  foldl (λ w cb, log (OnTick cb timeMs) w) w
        (for_of_values (onTickCallbacks_of h w)).

(** [tick(ms)]: with an argument the callbacks run at once; without one
    the function suspends on [player.getCurrentState()]. *)
Definition tick (h : Handle) (ms : option Z) (w : World) : World :=
  match ms with
  | Some timeMs => call_onTickCallbacks h timeMs w
  | None => await (KTick h) (log (GetCurrentState h) w)
  end.

(** The rest of [tick] once the state has arrived:
    [timeMs = state?.position], then the loop if it is defined. *)
Definition tick_resume (h : Handle) (state : option PlaybackState) (w : World)
  : World :=
  match position <$> state with
  | Some timeMs => call_onTickCallbacks h timeMs w
  | None => w
  end.

(** [stateChangeCallback].  [playbackListenerForTick] is built by
    [getPlaybackListenerForTick] of [../player], a module outside this
    development; its invocation is recorded in the trace. *)
Definition run_stateChangeCallback (h : Handle) (state : option PlaybackState)
    (w : World) : World :=
  match state with
  | None => w
  | Some state =>
      let w := log (PlaybackListenerForTick h (paused state)) w in
      foldl (λ w cb, log (PlaybackCallback cb (paused state)) w) w
            (for_of_values (playbackCallbacks_of h w))
  end.

Definition seekTo (h : Handle) (timeMs : Z) (w : World) : World :=
  let posTimeMs := if (timeMs <? 0)%Z then 0%Z else timeMs in
  await (KSeek h posTimeMs) (log (Seek h posTimeMs) w).

Definition play (h : Handle) (w : World) : World := log (Resume h) w.

Definition getCurrentTime (h : Handle) (w : World) : World :=
  await (KGetCurrentTime h) (log (GetCurrentState h) w).

Definition addOnTick (h : Handle) (cb : Callback) (w : World) : World :=
  let w := await (KAddOnTick h cb) (log (GetCurrentState h) w) in
  update_player h (λ p, with_onTickCallbacks (onTickCallbacks p ++ [cb]) p) w.

Definition removeOnTick (h : Handle) (callback : Callback) (w : World) : World :=
  update_player h
    (λ p, with_onTickCallbacks (remove_callback callback (onTickCallbacks p)) p) w.

(** *** Promises of a wrapped player *)

(** The start of the [.then(async (wp) => ...)] callback of the hook,
    up to its [await wp.connect()]. *)
Definition thenCallback (wp : Handle) (w : World) : World :=
  await (KConnect wp) (log (Connect wp) w).

Definition new_promise (st : PromiseState unit) (w : World) : PromiseId * World :=
  (length (promises w), set_promises (promises w ++ [st]) w).

(** [Promise.resolve(wp)] *)
Definition Promise_resolve (wp : Handle) (w : World) : PromiseId * World :=
  new_promise {| settled := Some wp; waiting := [] |} w.

(** [promise.then(callback)]: a resolved promise runs the callback in the
    next microtask, a pending one keeps it. *)
Definition promise_then (p : PromiseId) (w : World) : World :=
  match promises w !! p with
  | None => w
  | Some st =>
      match settled st with
      | Some wp => thenCallback wp w
      | None =>
          set_promises
            (<[p := {| settled := None; waiting := waiting st ++ [()] |}]>
               (promises w)) w
      end
  end.

(** [resolve(wp)]: only the first call has an effect. *)
Definition resolve (p : PromiseId) (wp : Handle) (w : World) : World :=
  match promises w !! p with
  | None => w
  | Some st =>
      match settled st with
      | Some _ => w
      | None =>
          foldl (λ w _, thenCallback wp w)
            (set_promises
               (<[p := {| settled := Some wp; waiting := [] |}]> (promises w)) w)
            (waiting st)
      end
  end.

(** *** [getSpotifyPlayer] *)

Definition getSpotifyPlayer (token : Token) (w : World) : PromiseId * World :=
  let w :=
    match getElementById SPOTIFY_SCRIPT_ID (document w) with
    | Some _ => w
    | None =>
        let script := {| tag := "script"; id := SPOTIFY_SCRIPT_ID;
                         src := SDK_SRC |} in
        log (AppendScript script)
          (set_document (appendChild script (document w)) w)
    end in
  let '(p, w) := new_promise {| settled := None; waiting := [] |} w in
  (p, set_onSpotifyWebPlaybackSDKReady (Some (token, p)) w).

(** The closure stored in [window.onSpotifyWebPlaybackSDKReady]. *)
Definition sdkReady (w : World) : World :=
  match onSpotifyWebPlaybackSDKReady w with
  | None => w
  | Some (token, p) =>
      let w := log (NewSpotifyPlayer (length (players w)) token) w in
      let '(wp, w) := wrapSpotifyPlayer false token w in
      resolve p wp w
  end.

(** *** [useSpotifyPlayer] *)

Definition onPlayerStateChanged_body (state : option PlaybackState) (w : World)
  : World :=
  let w := setState state w in
  let w := if state is Some _ then setPlayer (window_spotifyPlayer w) w else w in
  setStatus (if state is Some _ then READY else NOT_CONNECTED) w.

(** [window.spotifyPlayer && window.spotifyPlayer.authToken === token],
    giving the player when the test succeeds. *)
Definition window_player_with (token : Token) (w : World) : option Handle :=
  match window_spotifyPlayer w with
  | None => None
  | Some h =>
      match player_of h w with
      | Some wp => if bool_decide (authToken wp = token) then Some h else None
      | None => None
      end
  end.

(** [!tokenAndPromise || token !== tokenAndPromise.token ||
     !tokenAndPromise.promise] *)
Definition cache_miss (token : Token) (w : World) : bool :=
  match tokenAndPromise w with
  | None => true
  | Some (token', promise) =>
      bool_decide (token ≠ token') || bool_decide (promise = None)
  end.

(** The body of the effect for a truthy [token]. *)
Definition effect_body (token : Token) (w : World) : World :=
  let w :=
    if window_player_with token w is Some wp then
      let '(promise, w) := Promise_resolve wp w in
      set_tokenAndPromise (Some (token, Some promise)) w
    else if cache_miss token w then
      let w :=
        match window_spotifyPlayer w with
        | Some h => disconnect h w
        | None => w
        end in
      let '(promise, w) :=
        if bool_decide (token = "fake") then
          let w := log (GetFakePlayer (length (players w))) w in
          let '(wp, w) := wrapSpotifyPlayer true token w in
          Promise_resolve wp w
        else getSpotifyPlayer token w in
      set_tokenAndPromise (Some (token, Some promise)) w
    else w in
  match tokenAndPromise w with
  | None => throw TypeError w
  | Some (_, None) => w
  | Some (_, Some promise) => promise_then promise w
  end.

(** The effect: [if (!token) return;] leaves on [null] and on the empty
    string. *)
Definition useEffect (token : option Token) (w : World) : World :=
  match token with
  | None => w
  | Some token => if bool_decide (token = "") then w else effect_body token w
  end.

(** The function returned by the effect. *)
Definition cleanup (w : World) : World :=
  foldl (λ w event,
           match window_spotifyPlayer w with
           | Some h => removeListener h event w
           | None => w
           end)
        w (for_in_keys playerEvents).

(** The [.then] callback after [await wp.connect()] has produced [ok]. *)
Definition thenCallback_resume (wp : Handle) (ok : bool) (w : World) : World :=
  if negb ok then setStatus INIT_ERROR w
  else
    let w := set_window_spotifyPlayer (Some wp) w in
    let w := await (KInitialState wp) (log (GetCurrentState wp) w) in
    let w := addListener wp "player_state_changed" onPlayerStateChanged w in
    let w := addListener wp "playback_error" onPlaybackError w in
    let w := addListener wp "initialization_error" onInitializationError w in
    let w := addListener wp "authentication_error" onAuthenticationError w in
    let w := addListener wp "account_error" onAccountError w in
    addListener wp "ready" onReady w.

Definition event_message (ev : DeviceEvent) : string :=
  match ev with
  | player_state_changed _ => ""
  | playback_error m | initialization_error m | authentication_error m
  | account_error m => m
  | ready d => d
  end.

Definition run_listener (h : Handle) (ev : DeviceEvent) (w : World) (l : Listener)
  : World :=
  match l with
  | stateChangeCallback => run_stateChangeCallback h (event_state ev) w
  | onPlayerStateChanged => onPlayerStateChanged_body (event_state ev) w
  | onPlaybackError =>
      setStatus PLAYBACK_ERROR (log (ConsoleLogPlaybackError (event_message ev)) w)
  | onInitializationError => setStatus INIT_ERROR w
  | onAuthenticationError => setStatus AUTH_ERROR w
  | onAccountError => setStatus ACCT_ERROR w
  | onReady => setStatus NOT_CONNECTED w
  end.

(** *** The environment *)

(** The device emits [ev] on player [h]: the listeners registered under
    that name run in registration order. *)
Definition emit (h : Handle) (ev : DeviceEvent) (w : World) : World :=
  foldl (run_listener h ev) w
        ((filter (λ el, el.1 = event_name ev) (listeners_of h w)).*2).

(** The SDK settles the [i]-th outstanding call with [r].  A [true]
    from [connect] means the device is now connected.  A rejection is not
    caught anywhere in the code. *)
Definition settle (i : nat) (r : Response) (w : World) : World :=
  match pending w !! i with
  | None => w
  | Some k =>
      let w' := set_pending (delete i (pending w)) w in
      match k, r with
      | _, RReject => throw UnhandledRejection w'
      | KConnect wp, RBool ok =>
          thenCallback_resume wp ok
            (if ok then update_player wp (with_connected true) w' else w')
      | KInitialState wp, RState state => onPlayerStateChanged_body state w'
      | KSeek h posTimeMs, RVoid => tick h (Some posTimeMs) w'
      | KTick h, RState state => tick_resume h state w'
      | KAddOnTick h cb, RState state =>
          match state with
          | Some state => log (OnTick cb (position state)) w'
          | None => w'
          end
      | KGetCurrentTime h, RState state =>
          log (CurrentTime h (position <$> state)) w'
      | _, _ => w
      end
  end.

Inductive Step :=
| Effect (token : option Token)
| Cleanup
| SdkReady
| Settle (i : nat) (r : Response)
| Emit (h : Handle) (ev : DeviceEvent)
| Tick (h : Handle)
| CallDisconnect (h : Handle)
| SeekTo (h : Handle) (timeMs : Z)
| Play (h : Handle)
| GetCurrentTime (h : Handle)
| AddOnTick (h : Handle) (cb : Callback)
| RemoveOnTick (h : Handle) (cb : Callback).

Definition step (w : World) (s : Step) : World :=
  match s with
  | Effect token => useEffect token w
  | Cleanup => cleanup w
  | SdkReady => sdkReady w
  | Settle i r => settle i r w
  | Emit h ev => emit h ev w
  | Tick h => tick h None w
  | CallDisconnect h => disconnect h w
  | SeekTo h timeMs => seekTo h timeMs w
  | Play h => play h w
  | GetCurrentTime h => getCurrentTime h w
  | AddOnTick h cb => addOnTick h cb w
  | RemoveOnTick h cb => removeOnTick h cb w
  end.

Definition run (w : World) (steps : list Step) : World := foldl step w steps.

End Player.

(** * The earlier player source *)
Module Legacy.

(** [authToken.value as string]: the cast hides that the value may be
    [undefined]. *)
Abbreviation TokenValue := (option string).

Inductive Listener :=
| mainCallback
| setStatusFromState
| onPlaybackError
| onInitializationError
| onAuthenticationError
| onAccountError
| onReady.

(** The object returned by [createWrappedPlayer].  [authToken] starts as
    [{ value: undefined, reset }] and is overwritten by the hook. *)
Record WrappedPlayer := {
  authToken : TokenValue;
  connected : bool;
  listeners : list (string * Listener) }.

(** Effects on the environment, in program order;
    [ConsoleLogPlaybackError m] stands for the same [console.log] call as
    in [Player]. *)
Inductive Call :=
| AppendScript (e : Element)
| NewSpotifyPlayer (h : Handle) (token : TokenValue)
| Connect (h : Handle)
| Disconnect (h : Handle)
| GetCurrentState (h : Handle)
| Seek (h : Handle) (ms : Z)
| AddListener (h : Handle) (event : string) (l : Listener)
| RemoveListener (h : Handle) (event : string)
| SetInterval (id : nat) (h : Handle)
| ClearInterval (id : nat)
| PlayerStateCallback (cb : Callback) (state : PlaybackState)
| OnTick (cb : Callback) (state : PlaybackState)
| SetStatus (status : SpotifyPlayerStatus)
| SetPlayer (wp : Handle)
| ConsoleLogPlaybackError (obj_message : string).

Inductive Cont :=
| KConnect (wp : Handle) (authToken : TokenValue)
| KSeek (h : Handle)
| KTick (h : Handle)
| KAddOnStateChange (h : Handle) (cb : Callback).

(** [playerStateCallbacks], [onTickCallbacks] and [tickIntervalId] are
    module-level variables, shared by every wrapped player.  [intervals]
    is the browser's table of running interval timers, each with the
    player whose [tick] it calls. *)
Record World := {
  document : list Element;
  onSpotifyWebPlaybackSDKReady : option (TokenValue * PromiseId);
  promises : list (PromiseState TokenValue);
  players : list WrappedPlayer;
  window_player : option Handle;
  tokenAndPromise : option (TokenValue * option PromiseId);
  playerStateCallbacks : list Callback;
  onTickCallbacks : list Callback;
  tickIntervalId : option nat;
  intervals : list (nat * Handle);
  next_interval : nat;
  pending : list Cont;
  uncaught : list Error;
  trace : list Call }.

Definition init : World :=
  {| document := []; onSpotifyWebPlaybackSDKReady := None; promises := [];
     players := []; window_player := None; tokenAndPromise := None;
     playerStateCallbacks := []; onTickCallbacks := [];
     tickIntervalId := None; intervals := []; next_interval := 1;
     pending := []; uncaught := []; trace := [] |}.

Definition set_document v (w : World) : World :=
  {| document := v;
     onSpotifyWebPlaybackSDKReady := onSpotifyWebPlaybackSDKReady w;
     promises := promises w;
     players := players w;
     window_player := window_player w;
     tokenAndPromise := tokenAndPromise w;
     playerStateCallbacks := playerStateCallbacks w;
     onTickCallbacks := onTickCallbacks w;
     tickIntervalId := tickIntervalId w;
     intervals := intervals w;
     next_interval := next_interval w;
     pending := pending w;
     uncaught := uncaught w;
     trace := trace w |}.

Definition set_onSpotifyWebPlaybackSDKReady v (w : World) : World :=
  {| document := document w;
     onSpotifyWebPlaybackSDKReady := v;
     promises := promises w;
     players := players w;
     window_player := window_player w;
     tokenAndPromise := tokenAndPromise w;
     playerStateCallbacks := playerStateCallbacks w;
     onTickCallbacks := onTickCallbacks w;
     tickIntervalId := tickIntervalId w;
     intervals := intervals w;
     next_interval := next_interval w;
     pending := pending w;
     uncaught := uncaught w;
     trace := trace w |}.

Definition set_promises v (w : World) : World :=
  {| document := document w;
     onSpotifyWebPlaybackSDKReady := onSpotifyWebPlaybackSDKReady w;
     promises := v;
     players := players w;
     window_player := window_player w;
     tokenAndPromise := tokenAndPromise w;
     playerStateCallbacks := playerStateCallbacks w;
     onTickCallbacks := onTickCallbacks w;
     tickIntervalId := tickIntervalId w;
     intervals := intervals w;
     next_interval := next_interval w;
     pending := pending w;
     uncaught := uncaught w;
     trace := trace w |}.

Definition set_players v (w : World) : World :=
  {| document := document w;
     onSpotifyWebPlaybackSDKReady := onSpotifyWebPlaybackSDKReady w;
     promises := promises w;
     players := v;
     window_player := window_player w;
     tokenAndPromise := tokenAndPromise w;
     playerStateCallbacks := playerStateCallbacks w;
     onTickCallbacks := onTickCallbacks w;
     tickIntervalId := tickIntervalId w;
     intervals := intervals w;
     next_interval := next_interval w;
     pending := pending w;
     uncaught := uncaught w;
     trace := trace w |}.

Definition set_window_player v (w : World) : World :=
  {| document := document w;
     onSpotifyWebPlaybackSDKReady := onSpotifyWebPlaybackSDKReady w;
     promises := promises w;
     players := players w;
     window_player := v;
     tokenAndPromise := tokenAndPromise w;
     playerStateCallbacks := playerStateCallbacks w;
     onTickCallbacks := onTickCallbacks w;
     tickIntervalId := tickIntervalId w;
     intervals := intervals w;
     next_interval := next_interval w;
     pending := pending w;
     uncaught := uncaught w;
     trace := trace w |}.

Definition set_tokenAndPromise v (w : World) : World :=
  {| document := document w;
     onSpotifyWebPlaybackSDKReady := onSpotifyWebPlaybackSDKReady w;
     promises := promises w;
     players := players w;
     window_player := window_player w;
     tokenAndPromise := v;
     playerStateCallbacks := playerStateCallbacks w;
     onTickCallbacks := onTickCallbacks w;
     tickIntervalId := tickIntervalId w;
     intervals := intervals w;
     next_interval := next_interval w;
     pending := pending w;
     uncaught := uncaught w;
     trace := trace w |}.

Definition set_playerStateCallbacks v (w : World) : World :=
  {| document := document w;
     onSpotifyWebPlaybackSDKReady := onSpotifyWebPlaybackSDKReady w;
     promises := promises w;
     players := players w;
     window_player := window_player w;
     tokenAndPromise := tokenAndPromise w;
     playerStateCallbacks := v;
     onTickCallbacks := onTickCallbacks w;
     tickIntervalId := tickIntervalId w;
     intervals := intervals w;
     next_interval := next_interval w;
     pending := pending w;
     uncaught := uncaught w;
     trace := trace w |}.

Definition set_onTickCallbacks v (w : World) : World :=
  {| document := document w;
     onSpotifyWebPlaybackSDKReady := onSpotifyWebPlaybackSDKReady w;
     promises := promises w;
     players := players w;
     window_player := window_player w;
     tokenAndPromise := tokenAndPromise w;
     playerStateCallbacks := playerStateCallbacks w;
     onTickCallbacks := v;
     tickIntervalId := tickIntervalId w;
     intervals := intervals w;
     next_interval := next_interval w;
     pending := pending w;
     uncaught := uncaught w;
     trace := trace w |}.

Definition set_tickIntervalId v (w : World) : World :=
  {| document := document w;
     onSpotifyWebPlaybackSDKReady := onSpotifyWebPlaybackSDKReady w;
     promises := promises w;
     players := players w;
     window_player := window_player w;
     tokenAndPromise := tokenAndPromise w;
     playerStateCallbacks := playerStateCallbacks w;
     onTickCallbacks := onTickCallbacks w;
     tickIntervalId := v;
     intervals := intervals w;
     next_interval := next_interval w;
     pending := pending w;
     uncaught := uncaught w;
     trace := trace w |}.

Definition set_intervals v (w : World) : World :=
  {| document := document w;
     onSpotifyWebPlaybackSDKReady := onSpotifyWebPlaybackSDKReady w;
     promises := promises w;
     players := players w;
     window_player := window_player w;
     tokenAndPromise := tokenAndPromise w;
     playerStateCallbacks := playerStateCallbacks w;
     onTickCallbacks := onTickCallbacks w;
     tickIntervalId := tickIntervalId w;
     intervals := v;
     next_interval := next_interval w;
     pending := pending w;
     uncaught := uncaught w;
     trace := trace w |}.

Definition set_next_interval v (w : World) : World :=
  {| document := document w;
     onSpotifyWebPlaybackSDKReady := onSpotifyWebPlaybackSDKReady w;
     promises := promises w;
     players := players w;
     window_player := window_player w;
     tokenAndPromise := tokenAndPromise w;
     playerStateCallbacks := playerStateCallbacks w;
     onTickCallbacks := onTickCallbacks w;
     tickIntervalId := tickIntervalId w;
     intervals := intervals w;
     next_interval := v;
     pending := pending w;
     uncaught := uncaught w;
     trace := trace w |}.

Definition set_pending v (w : World) : World :=
  {| document := document w;
     onSpotifyWebPlaybackSDKReady := onSpotifyWebPlaybackSDKReady w;
     promises := promises w;
     players := players w;
     window_player := window_player w;
     tokenAndPromise := tokenAndPromise w;
     playerStateCallbacks := playerStateCallbacks w;
     onTickCallbacks := onTickCallbacks w;
     tickIntervalId := tickIntervalId w;
     intervals := intervals w;
     next_interval := next_interval w;
     pending := v;
     uncaught := uncaught w;
     trace := trace w |}.

Definition set_uncaught v (w : World) : World :=
  {| document := document w;
     onSpotifyWebPlaybackSDKReady := onSpotifyWebPlaybackSDKReady w;
     promises := promises w;
     players := players w;
     window_player := window_player w;
     tokenAndPromise := tokenAndPromise w;
     playerStateCallbacks := playerStateCallbacks w;
     onTickCallbacks := onTickCallbacks w;
     tickIntervalId := tickIntervalId w;
     intervals := intervals w;
     next_interval := next_interval w;
     pending := pending w;
     uncaught := v;
     trace := trace w |}.

Definition set_trace v (w : World) : World :=
  {| document := document w;
     onSpotifyWebPlaybackSDKReady := onSpotifyWebPlaybackSDKReady w;
     promises := promises w;
     players := players w;
     window_player := window_player w;
     tokenAndPromise := tokenAndPromise w;
     playerStateCallbacks := playerStateCallbacks w;
     onTickCallbacks := onTickCallbacks w;
     tickIntervalId := tickIntervalId w;
     intervals := intervals w;
     next_interval := next_interval w;
     pending := pending w;
     uncaught := uncaught w;
     trace := v |}.

Definition log (c : Call) (w : World) : World := set_trace (trace w ++ [c]) w.
Definition await (k : Cont) (w : World) : World := set_pending (pending w ++ [k]) w.
Definition throw (e : Error) (w : World) : World := set_uncaught (uncaught w ++ [e]) w.

(** *** The SDK player and the browser timers *)

Definition player_of (h : Handle) (w : World) : option WrappedPlayer :=
  players w !! h.

Definition listeners_of (h : Handle) (w : World) : list (string * Listener) :=
  from_option listeners [] (player_of h w).

Definition is_connected (h : Handle) (w : World) : bool :=
  from_option connected false (player_of h w).

Definition with_authToken (t : TokenValue) (p : WrappedPlayer) : WrappedPlayer :=
  {| authToken := t; connected := connected p; listeners := listeners p |}.

Definition with_connected (b : bool) (p : WrappedPlayer) : WrappedPlayer :=
  {| authToken := authToken p; connected := b; listeners := listeners p |}.

Definition with_listeners (ls : list (string * Listener)) (p : WrappedPlayer)
  : WrappedPlayer :=
  {| authToken := authToken p; connected := connected p; listeners := ls |}.

Definition update_player (h : Handle) (f : WrappedPlayer → WrappedPlayer)
    (w : World) : World :=
  set_players (alter f h (players w)) w.

Definition addListener (h : Handle) (event : string) (l : Listener) (w : World)
  : World :=
  log (AddListener h event l)
    (update_player h (λ p, with_listeners (listeners p ++ [(event, l)]) p) w).

Definition removeListener (h : Handle) (event : string) (w : World) : World :=
  log (RemoveListener h event)
    (update_player h
       (λ p, with_listeners (filter (λ el, el.1 ≠ event) (listeners p)) p) w).

Definition disconnect (h : Handle) (w : World) : World :=
  log (Disconnect h) (update_player h (with_connected false) w).

(** [window.setInterval(tick, 100)], [tick] being the one of player [h]:
    a fresh identifier is returned and the timer runs until cleared. *)
Definition setInterval (h : Handle) (w : World) : nat * World :=
  let id := next_interval w in
  (id, log (SetInterval id h)
         (set_next_interval (S id) (set_intervals (intervals w ++ [(id, h)]) w))).

(** [window.clearInterval(id)] *)
Definition clearInterval (id : nat) (w : World) : World :=
  log (ClearInterval id)
    (set_intervals (filter (λ ih, ih.1 ≠ id) (intervals w)) w).

(** *** [createWrappedPlayer] *)

(** [tick]: always a query of the player's state. *)
Definition tick (h : Handle) (w : World) : World :=
  await (KTick h) (log (GetCurrentState h) w).

(** [(state) => { if (state) for (const cb of onTickCallbacks) cb(state); }] *)
Definition tick_resume (state : option PlaybackState) (w : World) : World :=
  match state with
  | Some state =>
      foldl (λ w cb, log (OnTick cb state) w) w
            (for_of_values (onTickCallbacks w))
  | None => w
  end.

Definition run_mainCallback (h : Handle) (state : option PlaybackState)
    (w : World) : World :=
  match state with
  | None => w
  | Some state =>
      let w :=
        if negb (paused state) then
          match tickIntervalId w with
          | None =>
              let '(id, w) := setInterval h w in
              set_tickIntervalId (Some id) w
          | Some _ => w
          end
        else
          match tickIntervalId w with
          | Some id => set_tickIntervalId None (clearInterval id w)
          | None => w
          end in
      foldl (λ w cb, log (PlayerStateCallback cb state) w) w
            (for_of_values (playerStateCallbacks w))
  end.

Definition createWrappedPlayer (w : World) : Handle * World :=
  let h := length (players w) in
  let wp := {| authToken := None; connected := false; listeners := [] |} in
  (h, addListener h "player_state_changed" mainCallback
        (set_players (players w ++ [wp]) w)).

Definition seekTo (h : Handle) (ms : Z) (w : World) : World :=
  await (KSeek h) (log (Seek h ms) w).

Definition addOnStateChange (h : Handle) (cb : Callback) (w : World) : World :=
  let w := await (KAddOnStateChange h cb) (log (GetCurrentState h) w) in
  set_playerStateCallbacks (playerStateCallbacks w ++ [cb]) w.

Definition removeOnStateChange (callback : Callback) (w : World) : World :=
  set_playerStateCallbacks
    (remove_callback callback (playerStateCallbacks w)) w.

Definition addOnTick (cb : Callback) (w : World) : World :=
  set_onTickCallbacks (onTickCallbacks w ++ [cb]) w.

Definition removeOnTick (callback : Callback) (w : World) : World :=
  set_onTickCallbacks (remove_callback callback (onTickCallbacks w)) w.

(** *** Promises of a wrapped player *)

(** The [.then(async (wp) => ...)] callback up to [await wp.connect()];
    [authToken] is the hook argument the closure captured. *)
Definition thenCallback (authToken : TokenValue) (wp : Handle) (w : World)
  : World :=
  await (KConnect wp authToken) (log (Connect wp) w).

Definition new_promise (st : PromiseState TokenValue) (w : World)
  : PromiseId * World :=
  (length (promises w), set_promises (promises w ++ [st]) w).

Definition promise_then (p : PromiseId) (authToken : TokenValue) (w : World)
  : World :=
  match promises w !! p with
  | None => w
  | Some st =>
      match settled st with
      | Some wp => thenCallback authToken wp w
      | None =>
          set_promises
            (<[p := {| settled := None; waiting := waiting st ++ [authToken] |}]>
               (promises w)) w
      end
  end.

Definition resolve (p : PromiseId) (wp : Handle) (w : World) : World :=
  match promises w !! p with
  | None => w
  | Some st =>
      match settled st with
      | Some _ => w
      | None =>
          foldl (λ w authToken, thenCallback authToken wp w)
            (set_promises
               (<[p := {| settled := Some wp; waiting := [] |}]> (promises w)) w)
            (waiting st)
      end
  end.

(** *** [getSpotifyPlayer] *)

Definition getSpotifyPlayer (token : TokenValue) (w : World) : PromiseId * World :=
  let script := {| tag := "script"; id := ""; src := SDK_SRC |} in
  let w := log (AppendScript script)
             (set_document (appendChild script (document w)) w) in
  let '(p, w) := new_promise {| settled := None; waiting := [] |} w in
  (p, set_onSpotifyWebPlaybackSDKReady (Some (token, p)) w).

Definition sdkReady (w : World) : World :=
  match onSpotifyWebPlaybackSDKReady w with
  | None => w
  | Some (token, p) =>
      let w := log (NewSpotifyPlayer (length (players w)) token) w in
      let '(wp, w) := createWrappedPlayer w in
      resolve p wp w
  end.

(** *** [useSpotifyPlayer] *)

Definition cache_miss (token : TokenValue) (w : World) : bool :=
  match tokenAndPromise w with
  | None => true
  | Some (token', promise) =>
      bool_decide (token ≠ token') || bool_decide (promise = None)
  end.

Definition useEffect (token : TokenValue) (w : World) : World :=
  let w :=
    if cache_miss token w then
      let w :=
        match window_player w with
        | Some h => disconnect h w
        | None => w
        end in
      let '(promise, w) := getSpotifyPlayer token w in
      set_tokenAndPromise (Some (token, Some promise)) w
    else w in
  match tokenAndPromise w with
  | None => throw TypeError w
  | Some (_, None) => w
  | Some (_, Some promise) => promise_then promise token w
  end.

(** The function returned by the effect; [player] is the hook's state
    variable as the effect's closure captured it. *)
Definition cleanup (player : option Handle) (w : World) : World :=
  foldl (λ w event,
           match player with
           | Some h => removeListener h event w
           | None => w
           end)
        w (for_in_keys playerEvents).

Definition thenCallback_resume (wp : Handle) (authToken : TokenValue)
    (ok : bool) (w : World) : World :=
  if negb ok then log (SetStatus INIT_ERROR) w
  else
    let w := addListener wp "player_state_changed" setStatusFromState w in
    let w := addListener wp "playback_error" onPlaybackError w in
    let w := addListener wp "initialization_error" onInitializationError w in
    let w := addListener wp "authentication_error" onAuthenticationError w in
    let w := addListener wp "account_error" onAccountError w in
    let w := addListener wp "ready" onReady w in
    let w := update_player wp (with_authToken authToken) w in
    let w := set_window_player (Some wp) w in
    log (SetPlayer wp) w.

Definition event_message (ev : DeviceEvent) : string :=
  match ev with
  | player_state_changed _ => ""
  | playback_error m | initialization_error m | authentication_error m
  | account_error m => m
  | ready d => d
  end.

Definition run_listener (h : Handle) (ev : DeviceEvent) (w : World) (l : Listener)
  : World :=
  match l with
  | mainCallback => run_mainCallback h (event_state ev) w
  | setStatusFromState =>
      log (SetStatus (if event_state ev is Some _ then READY else NOT_CONNECTED)) w
  | onPlaybackError =>
      log (SetStatus PLAYBACK_ERROR) (log (ConsoleLogPlaybackError (event_message ev)) w)
  | onInitializationError => log (SetStatus INIT_ERROR) w
  | onAuthenticationError => log (SetStatus AUTH_ERROR) w
  | onAccountError => log (SetStatus ACCT_ERROR) w
  | onReady => log (SetStatus NOT_CONNECTED) w
  end.

(** *** The environment *)

Definition emit (h : Handle) (ev : DeviceEvent) (w : World) : World :=
  foldl (run_listener h ev) w
        ((filter (λ el, el.1 = event_name ev) (listeners_of h w)).*2).

Definition settle (i : nat) (r : Response) (w : World) : World :=
  match pending w !! i with
  | None => w
  | Some k =>
      let w' := set_pending (delete i (pending w)) w in
      match k, r with
      | _, RReject => throw UnhandledRejection w'
      | KConnect wp authToken, RBool ok =>
          thenCallback_resume wp authToken ok
            (if ok then update_player wp (with_connected true) w' else w')
      | KSeek h, RVoid => tick h w'
      | KTick h, RState state => tick_resume state w'
      | KAddOnStateChange h cb, RState state =>
          match state with
          | Some state => log (PlayerStateCallback cb state) w'
          | None => w'
          end
      | _, _ => w
      end
  end.

(** A running interval timer calls its [tick]. *)
Definition interval_fires (id : nat) (w : World) : World :=
  match (filter (λ ih, ih.1 = id) (intervals w)).*2 with
  | h :: _ => tick h w
  | [] => w
  end.

Inductive Step :=
| Effect (token : TokenValue)
| Cleanup (player : option Handle)
| SdkReady
| Settle (i : nat) (r : Response)
| Emit (h : Handle) (ev : DeviceEvent)
| IntervalFires (id : nat)
| CallDisconnect (h : Handle)
| SeekTo (h : Handle) (ms : Z)
| AddOnStateChange (h : Handle) (cb : Callback)
| RemoveOnStateChange (cb : Callback)
| AddOnTick (cb : Callback)
| RemoveOnTick (cb : Callback).

Definition step (w : World) (s : Step) : World :=
  match s with
  | Effect token => useEffect token w
  | Cleanup player => cleanup player w
  | SdkReady => sdkReady w
  | Settle i r => settle i r w
  | Emit h ev => emit h ev w
  | IntervalFires id => interval_fires id w
  | CallDisconnect h => disconnect h w
  | SeekTo h ms => seekTo h ms w
  | AddOnStateChange h cb => addOnStateChange h cb w
  | RemoveOnStateChange cb => removeOnStateChange cb w
  | AddOnTick cb => addOnTick cb w
  | RemoveOnTick cb => removeOnTick cb w
  end.

Definition run (w : World) (steps : list Step) : World := foldl step w steps.

End Legacy.

(** * Vocabulary of the properties *)

Module PlayerSpec.
Import Player.

(** The event under which the code registers each closure. *)
Definition listener_event (l : Listener) : string :=
  match l with
  | stateChangeCallback | onPlayerStateChanged => "player_state_changed"
  | onPlaybackError => "playback_error"
  | onInitializationError => "initialization_error"
  | onAuthenticationError => "authentication_error"
  | onAccountError => "account_error"
  | onReady => "ready"
  end.

Definition well_named (el : string * Listener) : Prop :=
  el.1 = listener_event el.2.

(** Every listener of every player sits under its own event. *)
Definition listeners_named (w : World) : Prop :=
  Forall (λ p, Forall well_named (listeners p)) (players w).

(** The listeners the hook registers once [connect] has succeeded. *)
Definition hook_listeners : list (string * Listener) :=
  [ ("player_state_changed", onPlayerStateChanged);
    ("playback_error", onPlaybackError);
    ("initialization_error", onInitializationError);
    ("authentication_error", onAuthenticationError);
    ("account_error", onAccountError);
    ("ready", onReady) ].

Definition hook_listening (h : Handle) (w : World) : Prop :=
  hook_listeners ⊆ listeners_of h w.

(** No two players are connected at once. *)
Definition exclusive (w : World) : Prop :=
  ∀ h1 h2, is_connected h1 w = true → is_connected h2 w = true → h1 = h2.

(** Worlds used as examples. *)
Definition fake_mounted : World := run init [Effect (Some "fake")].

Definition two_subscribers : World :=
  run fake_mounted [AddOnTick 0 7; AddOnTick 0 9].

Definition connecting_steps : list Step := [Effect (Some "abc"); SdkReady].

Definition abc_steps : list Step :=
  [Effect (Some "abc"); SdkReady; Settle 0 (RBool true)].

Definition connected_abc : World := run init abc_steps.

Definition playing_1000 : PlaybackState :=
  {| paused := false; position := 1000;
     current_track :=
       Some {| track_name := "Song";
               artists := [ {| artist_name := "Ann" |};
                            {| artist_name := "Bob" |} ] |} |}.

End PlayerSpec.

Module LegacySpec.
Import Legacy.

(** No two players are connected at once. *)
Definition exclusive (w : World) : Prop :=
  ∀ h1 h2, is_connected h1 w = true → is_connected h2 w = true → h1 = h2.

Definition is_disconnect (c : Call) : bool :=
  match c with
  | Disconnect _ => true
  | _ => false
  end.




(** The two pieces of state the timer lives in. *)
Definition timers (w : World) : option nat * list (nat * nat) :=
  (tickIntervalId w, intervals w).

(** The running timers are exactly the one [tickIntervalId] names. *)
Definition timer_consistent (w : World) : Prop :=
  (intervals w).*1 = option_list (tickIntervalId w).



Definition playing : PlaybackState :=
  {| paused := false; position := 1000; current_track := None |}.

(** A token change while the first player is still connecting. *)
Definition race : list Step :=
  [ Effect (Some "A"); SdkReady; Effect (Some "B"); Settle 0 (RBool true);
    SdkReady; Settle 0 (RBool true) ].


End LegacySpec.

(** * [useSpotifyAuth] *)
Module Auth.

Inductive AuthStatus := LOADING | NO_AUTH | GOOD.

(** A URL, as far as the hook looks at it: everything but the query,
    and the query as [URLSearchParams] sees it. *)
Record Url := {
  origin_and_path : string;
  searchParams : list (string * string) }.

(** [URLSearchParams.get(name)]: the first value under [name], or
    [null]. *)
Definition searchParams_get (name : string) (ps : list (string * string))
  : option string :=
  snd <$> head (filter (λ kv, kv.1 = name) ps).

(** [URLSearchParams.delete(name)]: every pair under [name] goes. *)
Definition searchParams_delete (name : string) (ps : list (string * string))
  : list (string * string) :=
  filter (λ kv, kv.1 ≠ name) ps.

(** The truthiness test [if (s)] on a [string | null | undefined]. *)
Definition truthy (s : option string) : bool :=
  match s with
  | Some s => negb (String.eqb s "")
  | None => false
  end.

(** The two [useState] cells of the hook, the router's location it
    renders with, and the browser: [window.location.href] and
    [localStorage]. *)
Record World := {
  token : option string;
  status : AuthStatus;
  location : Url;
  window_location : Url;
  localStorage : gmap string string }.

(** A page load at [url] with the storage [ls] left by earlier
    sessions. *)
Definition page_load (url : Url) (ls : gmap string string) : World :=
  {| token := None; status := LOADING; location := url;
     window_location := url; localStorage := ls |}.

(** [new URLSearchParams(location.search).get("token")] *)
Definition tokenInParams (w : World) : option string :=
  searchParams_get "token" (searchParams (location w)).

(** The effect.  In its second branch [tokenInParams] is a non-empty
    string, the one written to the storage.  [history.replaceState]
    changes the window's URL only; the router's location is not told. *)
Definition useEffect (w : World) : World :=
  if truthy (token w) then w
  else if truthy (tokenInParams w) then
    let newUrl :=
      {| origin_and_path := origin_and_path (window_location w);
         searchParams :=
           searchParams_delete "token" (searchParams (window_location w)) |} in
    {| token := tokenInParams w; status := GOOD; location := location w;
       window_location := newUrl;
       localStorage :=
         <["authToken" := default "" (tokenInParams w)]> (localStorage w) |}
  else
    let tokenFromLS := localStorage w !! "authToken" in
    if truthy tokenFromLS then
      {| token := tokenFromLS; status := GOOD; location := location w;
         window_location := window_location w;
         localStorage := localStorage w |}
    else
      {| token := token w; status := NO_AUTH; location := location w;
         window_location := window_location w;
         localStorage := localStorage w |}.


End Auth.

(** * [components/Header.tsx]: the CSV handlers *)
Module Header.

Record File := { file_name : string; file_type : string }.

Inductive Alert := NoFileSelected | MustBeCsv.

(** What a handler does to the outside. *)
Inductive Action :=
| alert (a : Alert)
| loadFromCSV (f : File)
| saveToCSV (name : string).

(** [target?.files?.[0]], with [files] the [FileList | null] of the
    input. *)
Definition first_file (files : option (list File)) : option File :=
  files ≫= head.

Definition handleLoadCSV (files : option (list File)) : list Action :=
  match first_file files with
  | None => [alert NoFileSelected]
  | Some file =>
      (if bool_decide (file_type file ≠ "text/csv") then [alert MustBeCsv]
       else [])
      ++ [loadFromCSV file]
  end.

(** [s.replaceAll(from, to)] for one-character [from] and [to]. *)
Fixpoint replaceAll (from to : Ascii.ascii) (s : string) : string :=
  match s with
  | EmptyString => EmptyString
  | String c s' =>
      String (if Ascii.eqb c from then to else c) (replaceAll from to s')
  end.

(** The characters [" "] and ["_"]. *)
Definition space : Ascii.ascii := Ascii.ascii_of_nat 32.
Definition underscore : Ascii.ascii := Ascii.ascii_of_nat 95.

Section Locale.
(** [String.prototype.toLocaleLowerCase] depends on the host's locale. *)
Variable toLocaleLowerCase : string → string.

Definition handleSaveCSV (trackName : string) : list Action :=
  let formattedTrackName :=
    replaceAll space underscore (toLocaleLowerCase trackName) in
  [saveToCSV formattedTrackName].

End Locale.

End Header.

(** * Vocabulary of the further properties *)

Module PlayerLaws.
Import Player.

(** The three atoms the hook publishes. *)
Definition atoms (w : World)
  : SpotifyPlayerStatus * option PlaybackState * option nat :=
  (playerStatusAtom w, playbackStateAtom w, spotifyPlayerAtom w).

(** The steps in which the SDK answers or the device speaks. *)
Definition from_sdk (s : Step) : bool :=
  match s with
  | Settle _ _ | Emit _ _ => true
  | _ => false
  end.

(** The player a continuation of the hook will act on. *)
Definition hook_cont_player (k : Cont) : option nat :=
  match k with
  | KConnect wp | KInitialState wp => Some wp
  | _ => None
  end.

(** Nothing the hook holds dangles: every player it refers to has been
    constructed and every promise it refers to exists. *)
Record well_formed (w : World) : Prop := {
  wf_window : ∀ h, window_spotifyPlayer w = Some h → h < length (players w);
  wf_atom : ∀ h, spotifyPlayerAtom w = Some h → h < length (players w);
  wf_cache :
    ∀ t p, tokenAndPromise w = Some (t, Some p) → p < length (promises w);
  wf_ready :
    ∀ t p, onSpotifyWebPlaybackSDKReady w = Some (t, p) →
           p < length (promises w);
  wf_promises :
    Forall (λ st, ∀ h, settled st = Some h → h < length (players w))
           (promises w);
  wf_pending :
    Forall (λ k, ∀ h, hook_cont_player k = Some h → h < length (players w))
           (pending w) }.

Definition sdk_script : Element :=
  {| tag := "script"; id := SPOTIFY_SCRIPT_ID; src := SDK_SRC |}.

(** The page after [k] effect runs for [token] while the SDK has not
    signalled yet: one script, one pending promise with [k] callbacks. *)
Definition awaiting_sdk (token : Token) (k : nat) : World :=
  {| document := [sdk_script];
     onSpotifyWebPlaybackSDKReady := Some (token, 0);
     promises := [{| settled := None; waiting := replicate k () |}];
     players := []; window_spotifyPlayer := None;
     tokenAndPromise := Some (token, Some 0);
     spotifyPlayerAtom := None; playerStatusAtom := LOADING;
     playbackStateAtom := None; pending := []; uncaught := [];
     trace := [AppendScript sdk_script] |}.

(** [k] rounds of mounting and unmounting, then a mount that stays. *)
Definition remounts (token : Token) (k : nat) : list Step :=
  concat (replicate k [Effect (Some token); Cleanup]) ++ [Effect (Some token)].

(** The page after the token has changed from "abc", whose player is
    connected, to "def". *)
Definition switched_away : World :=
  run init (PlayerSpec.abc_steps ++ [Effect (Some "def")]).

(** The token changes to "fake" while the player of "A" is still
    connecting; both connects then succeed. *)
Definition fake_race : list Step :=
  [ Effect (Some "A"); SdkReady; Effect (Some "fake");
    Settle 0 (RBool true); Settle 0 (RBool true) ].

(** The page once the connected player of "abc" has reported a state. *)
Definition is_disconnect (c : Call) : bool :=
  match c with
  | Disconnect _ => true
  | _ => false
  end.

Definition with_snapshot : World :=
  emit 0 (player_state_changed (Some PlayerSpec.playing_1000))
    PlayerSpec.connected_abc.

Definition error_status (ev : DeviceEvent) : option SpotifyPlayerStatus :=
  match ev with
  | playback_error _ => Some PLAYBACK_ERROR
  | initialization_error _ => Some INIT_ERROR
  | authentication_error _ => Some AUTH_ERROR
  | account_error _ => Some ACCT_ERROR
  | _ => None
  end.

End PlayerLaws.

Module LegacyLaws.
Import Legacy.

(** The earlier page with the player of "A" connected and one tick
    subscriber. *)
Definition connected_A : World :=
  run init [ Effect (Some "A"); SdkReady; Settle 0 (RBool true); AddOnTick 7 ].

(** Two credentials, one after the other. *)
Definition two_tokens : list Step := [ Effect (Some "A"); Effect (Some "B") ].

(** Calling the earlier [getSpotifyPlayer] once per token. *)
Definition construct_all (tokens : list TokenValue) (w : World) : World :=
  foldl (λ w token, (getSpotifyPlayer token w).2) w tokens.

End LegacyLaws.

(** * Properties *)

(** ** Lists, arrays and records *)

Lemma findIndex_from_absent (callback : Callback) (arr : list Callback) (i : Z) :
  callback ∉ arr → findIndex_from i callback arr = (-1)%Z.
Proof.
  revert i. induction arr as [|cb arr IH]; intros i Hnot; [done|].
  apply not_elem_of_cons in Hnot as [Hne Hnot]. simpl.
  destruct (Nat.eqb_spec cb callback) as [->|_]; [done|]. by apply IH.
Qed.

Lemma findIndex_from_present (callback : Callback) (arr : list Callback) (i : Z) :
  callback ∈ arr →
  (i ≤ findIndex_from i callback arr < i + Z.of_nat (length arr))%Z.
Proof.
  revert i. induction arr as [|cb arr IH]; intros i Hin.
  - by apply elem_of_nil in Hin.
  - simpl. destruct (Nat.eqb_spec cb callback) as [->|Hne]; [lia|].
    apply elem_of_cons in Hin as [->|Hin]; [done|].
    specialize (IH (i + 1)%Z Hin). lia.
Qed.

Lemma remove_callback_absent (callback : Callback) (arr : list Callback) :
  callback ∉ arr → remove_callback callback arr = arr.
Proof.
  intros Hnot. unfold remove_callback, findIndex.
  rewrite (findIndex_from_absent _ _ _ Hnot).
  by destruct (length arr =? 0)%nat.
Qed.

Lemma alter_fixed {A} (f : A → A) (l : list A) (i : nat) :
  (∀ x, l !! i = Some x → f x = x) → alter f i l = l.
Proof.
  revert i. induction l as [|a l IH]; intros [|i] Hf; simpl; try done.
  - f_equal. by apply Hf.
  - f_equal. apply IH. intros x Hx. by apply Hf.
Qed.

Lemma foldl_snoc_trace {A B} (f : B → A) (l : list B) (acc : list A) :
  foldl (λ t x, t ++ [f x]) acc l = acc ++ (f <$> l).
Proof.
  revert acc. induction l as [|x l IH]; intros acc; simpl.
  - by rewrite app_nil_r.
  - rewrite IH. by rewrite <- app_assoc.
Qed.

(** What holds of the start and survives every element holds at the end
    of a loop. *)
Lemma foldl_invariant {W B} (P : W → Prop) (f : W → B → W) (l : list B) (w : W) :
  P w → (∀ w x, P w → P (f w x)) → P (foldl f w l).
Proof.
  revert w. induction l as [|x l IH]; intros w Hw Hf; simpl; [done|].
  apply IH; [by apply Hf|done].
Qed.

Lemma foldl_invariant_elem {W B} (P : W → Prop) (f : W → B → W) (l : list B)
    (w : W) :
  P w → (∀ w x, x ∈ l → P w → P (f w x)) → P (foldl f w l).
Proof.
  revert w. induction l as [|y l IH]; intros w Hw Hf; simpl; [done|].
  apply IH.
  - apply Hf; [left|done].
  - intros w' x Hx. apply Hf. by right.
Qed.

(** What some element of a loop establishes and all the others keep holds
    at the end. *)
Lemma foldl_established {W B} (R Q : W → Prop) (f : W → B → W) (l : list B) :
  (∀ w x, x ∈ l → R w → R (f w x)) →
  (∀ w x, x ∈ l → R w → Q w → Q (f w x)) →
  (∃ x, x ∈ l ∧ ∀ w, R w → Q (f w x)) →
  ∀ w, R w → Q (foldl f w l).
Proof.
  induction l as [|y l IH]; intros HR HQ (x & Hx & Hest) w Hw.
  - by apply elem_of_nil in Hx.
  - simpl. apply elem_of_cons in Hx as [->|Hx].
    + apply (foldl_invariant_elem (λ w, R w ∧ Q w)).
      * split; [apply HR; [left|done]|by apply Hest].
      * intros w' z Hz [HRw HQw].
        split; [apply HR; [by right|done]|apply HQ; [by right|done..]].
    + apply IH; [| |by eauto|].
      * intros w' z Hz. apply HR. by right.
      * intros w' z Hz. apply HQ. by right.
      * apply HR; [left|done].
Qed.

(** ** [lib/spotify/player.ts]: the wrapper *)

Module PlayerFacts.
Import Player.

Lemma set_players_same (w : World) : set_players (players w) w = w.
Proof. by destruct w. Qed.

Lemma update_player_fixed (h : Handle) (f : SpotifyPlayer → SpotifyPlayer)
    (w : World) :
  (∀ p, player_of h w = Some p → f p = p) → update_player h f w = w.
Proof.
  intros Hf. unfold update_player. rewrite alter_fixed; [|done].
  apply set_players_same.
Qed.

(** A loop that only logs leaves everything but the trace alone. *)
Lemma foldl_log {B} (c : B → Call) (l : list B) (w : World) :
  foldl (λ w x, log (c x) w) w l = set_trace (trace w ++ (c <$> l)) w.
Proof.
  revert w. induction l as [|x l IH]; intros w; simpl.
  - rewrite app_nil_r. by destruct w.
  - rewrite IH. unfold log, set_trace; simpl. by rewrite <- app_assoc.
Qed.

Lemma call_onTickCallbacks_eq (h : Handle) (timeMs : Z) (w : World) :
  call_onTickCallbacks h timeMs w
  = set_trace (trace w ++ ((λ cb, OnTick cb timeMs) <$> onTickCallbacks_of h w)) w.
Proof. unfold call_onTickCallbacks, for_of_values. apply foldl_log. Qed.

Lemma removeOnTick_absent (h : Handle) (callback : Callback) (w : World) :
  callback ∉ onTickCallbacks_of h w → removeOnTick h callback w = w.
Proof.
  intros Hnot. unfold removeOnTick. apply update_player_fixed.
  intros p Hp. unfold onTickCallbacks_of in Hnot. rewrite Hp in Hnot.
  simpl in Hnot. rewrite remove_callback_absent; [|done]. by destruct p.
Qed.



End PlayerFacts.

Module LegacyFacts.
Import Legacy.

Lemma set_onTickCallbacks_same (w : World) :
  set_onTickCallbacks (onTickCallbacks w) w = w.
Proof. by destruct w. Qed.

Lemma legacy_foldl_log {B} (c : B → Call) (l : list B) (w : World) :
  foldl (λ w x, log (c x) w) w l = set_trace (trace w ++ (c <$> l)) w.
Proof.
  revert w. induction l as [|x l IH]; intros w; simpl.
  - rewrite app_nil_r. by destruct w.
  - rewrite IH. unfold log, set_trace; simpl. by rewrite <- app_assoc.
Qed.

Lemma legacy_removeOnTick_absent (callback : Callback) (w : World) :
  callback ∉ onTickCallbacks w → removeOnTick callback w = w.
Proof.
  intros Hnot. unfold removeOnTick.
  rewrite remove_callback_absent; [|done]. apply set_onTickCallbacks_same.
Qed.

End LegacyFacts.

(** ** The claims about the wrapper *)

(** C10: when the stored playback state is null (nothing received yet, or
    the device reported a null state), the derived paused flag is true. *)
Theorem C10_no_state_reads_as_paused (w : Player.World) :
  Player.playbackStateAtom w = None → Player.spotifyPausedAtom w = true.
Proof. unfold Player.spotifyPausedAtom. by intros ->. Qed.

Lemma C10_no_state_reads_as_paused_witness :
  Player.spotifyPausedAtom Player.init = true
  ∧ Player.spotifyPausedAtom
      (Player.onPlayerStateChanged_body None Player.init) = true.
Proof.
  split.
  - apply (C10_no_state_reads_as_paused Player.init). reflexivity.
  - apply (C10_no_state_reads_as_paused
             (Player.onPlayerStateChanged_body None Player.init)).
    reflexivity.
Defined.

(** C7: [removeOnTick] with a callback that is not in the tick registry
    throws nothing and changes nothing, so a later tick still reaches every
    registered callback.  Both sources share the function body. *)
Theorem C7_removeOnTick_unregistered
    (w : Player.World) (h : Handle) (callback : Callback) (timeMs : Z) :
  callback ∉ Player.onTickCallbacks_of h w →
  let w' := Player.removeOnTick h callback w in
  w' = w
  ∧ Player.uncaught w' = Player.uncaught w
  ∧ Player.onTickCallbacks_of h w' = Player.onTickCallbacks_of h w
  ∧ Player.trace (Player.tick h (Some timeMs) w')
    = Player.trace w
      ++ ((λ cb, Player.OnTick cb timeMs) <$> Player.onTickCallbacks_of h w)
  ∧ ∀ lw : Legacy.World,
      callback ∉ Legacy.onTickCallbacks lw →
      Legacy.removeOnTick callback lw = lw.
Proof.
  intros Hnot w'. subst w'.
  rewrite PlayerFacts.removeOnTick_absent; [|done].
  repeat split; try done.
  - simpl. by rewrite PlayerFacts.call_onTickCallbacks_eq.
  - apply LegacyFacts.legacy_removeOnTick_absent.
Qed.

Lemma C7_removeOnTick_unregistered_witness :
  Player.removeOnTick 0 8 PlayerSpec.two_subscribers = PlayerSpec.two_subscribers
  ∧ Player.trace (Player.tick 0 (Some 40%Z) (Player.removeOnTick 0 8 PlayerSpec.two_subscribers))
    = Player.trace PlayerSpec.two_subscribers ++ [Player.OnTick 7 40; Player.OnTick 9 40].
Proof.
  assert (Hnot : 8 ∉ Player.onTickCallbacks_of 0 PlayerSpec.two_subscribers).
  { vm_compute. intros Hin. repeat (apply elem_of_cons in Hin as [Hin|Hin]; [lia|]).
    by apply elem_of_nil in Hin. }
  destruct (C7_removeOnTick_unregistered PlayerSpec.two_subscribers 0 8 40 Hnot)
    as (Hsame & _ & _ & Htick & _).
  split; [exact Hsame|exact Htick].
Defined.




(** C8: on the wrapper of [wrapSpotifyPlayer], [addOnTick(cb)] puts [cb]
    in the tick registry and, as soon as the state query it issued is
    answered with a state, calls [cb] once with that state's position; no
    timer is involved. *)
Theorem C8_addOnTick_immediate_tick
    (w : Player.World) (h : Handle) (cb : Callback) (state : PlaybackState) :
  h < length (Player.players w) →
  let w1 := Player.addOnTick h cb w in
  Player.onTickCallbacks_of h w1 = Player.onTickCallbacks_of h w ++ [cb]
  ∧ Player.trace w1 = Player.trace w ++ [Player.GetCurrentState h]
  ∧ Player.pending w1 = Player.pending w ++ [Player.KAddOnTick h cb]
  ∧ Player.trace
      (Player.settle (length (Player.pending w)) (RState (Some state)) w1)
    = Player.trace w1 ++ [Player.OnTick cb (position state)]
  ∧ Player.trace (Player.settle (length (Player.pending w)) (RState None) w1)
    = Player.trace w1.
Proof.
  intros Hh w1. subst w1.
  destruct (lookup_lt_is_Some_2 _ _ Hh) as [p Hp].
  assert (Hk : (Player.pending w ++ [Player.KAddOnTick h cb])
               !! length (Player.pending w) = Some (Player.KAddOnTick h cb))
    by by apply list_lookup_middle.
  split; [|split; [done|split; [done|split]]].
  - unfold Player.addOnTick, Player.onTickCallbacks_of, Player.player_of,
      Player.update_player.
    simpl. by rewrite list_lookup_alter_eq, Hp.
  - unfold Player.settle. simpl. by rewrite Hk.
  - unfold Player.settle. simpl. by rewrite Hk.
Qed.

Lemma C8_addOnTick_immediate_tick_witness :
  Player.trace
    (Player.settle 1
       (RState (Some {| paused := false; position := 1000; current_track := None |}))
       (Player.addOnTick 0 7 PlayerSpec.fake_mounted))
  = Player.trace (Player.addOnTick 0 7 PlayerSpec.fake_mounted)
    ++ [Player.OnTick 7 1000].
Proof.
  refine (proj1 (proj2 (proj2 (proj2
    (C8_addOnTick_immediate_tick
       PlayerSpec.fake_mounted 0 7
       {| paused := false; position := 1000; current_track := None |} _))))).
  vm_compute. lia.
Defined.

(** The [addOnTick] of the earlier [createWrappedPlayer] only registers:
    on a connected player it calls nothing, asks the device nothing and
    leaves nothing pending that could deliver a position. *)
Lemma C8_legacy_addOnTick_no_tick :
  let w := LegacyLaws.connected_A in
  let w1 := Legacy.addOnTick 9 w in
  Legacy.onTickCallbacks w1 = [7; 9]
  ∧ Legacy.trace w1 = Legacy.trace w
  ∧ Legacy.pending w1 = []
  ∧ Legacy.intervals w1 = Legacy.intervals w.
Proof. by vm_compute. Qed.

(** ** The bootstrap script *)

Module ScriptFacts.
Import Player.

Lemma document_foldl {B} (f : World → B → World) (l : list B) (w : World) :
  (∀ w x, document (f w x) = document w) →
  document (foldl f w l) = document w.
Proof.
  intros Hf. apply (foldl_invariant (λ w', document w' = document w)); [done|].
  intros w' x Hw'. by rewrite Hf.
Qed.

Lemma document_update_player h f w : document (update_player h f w) = document w.
Proof. done. Qed.

Lemma document_resolve p wp w : document (resolve p wp w) = document w.
Proof.
  unfold resolve. destruct (promises w !! p) as [st|]; [|done].
  destruct (settled st); [done|]. by rewrite document_foldl.
Qed.

Lemma document_promise_then p w : document (promise_then p w) = document w.
Proof.
  unfold promise_then. destruct (promises w !! p) as [st|]; [|done].
  by destruct (settled st).
Qed.

Lemma document_sdkReady w : document (sdkReady w) = document w.
Proof.
  unfold sdkReady. destruct (onSpotifyWebPlaybackSDKReady w) as [[token p]|]; [|done].
  simpl. by rewrite document_resolve.
Qed.

Lemma document_cleanup w : document (cleanup w) = document w.
Proof.
  unfold cleanup. apply document_foldl. intros w' event.
  by destruct (window_spotifyPlayer w').
Qed.

Lemma document_run_listener h ev w l :
  document (run_listener h ev w l) = document w.
Proof.
  destruct l; simpl; try done.
  - unfold run_stateChangeCallback. destruct (event_state ev); [|done].
    by rewrite document_foldl.
  - unfold onPlayerStateChanged_body. by destruct (event_state ev).
Qed.

Lemma document_emit h ev w : document (emit h ev w) = document w.
Proof. unfold emit. apply document_foldl. intros. apply document_run_listener. Qed.

Lemma document_call_onTickCallbacks h timeMs w :
  document (call_onTickCallbacks h timeMs w) = document w.
Proof. unfold call_onTickCallbacks. by apply document_foldl. Qed.

Lemma document_settle i r w : document (settle i r w) = document w.
Proof.
  unfold settle. destruct (pending w !! i) as [k|]; [|done].
  destruct k, r; simpl; try done.
  - by destruct b.
  - unfold onPlayerStateChanged_body. by destruct state.
  - by rewrite document_call_onTickCallbacks.
  - unfold tick_resume. destruct state; simpl; [|done].
    by rewrite document_call_onTickCallbacks.
  - by destruct state.
Qed.

Lemma getElementById_None i doc :
  getElementById i doc = None → count_id i doc = 0.
Proof.
  unfold getElementById, count_id. by destruct (filter _ doc).
Qed.

Lemma count_id_appendChild i e doc :
  count_id i (appendChild e doc)
  = count_id i doc + (if bool_decide (id e = i) then 1 else 0).
Proof.
  unfold count_id, appendChild. rewrite filter_app, length_app. f_equal.
  rewrite filter_cons, filter_nil. by case_bool_decide; case_decide.
Qed.

(** One call of [getSpotifyPlayer]: the script is appended exactly when
    no element carries the identifier yet. *)
Lemma getSpotifyPlayer_count token w :
  count_id SPOTIFY_SCRIPT_ID (document (getSpotifyPlayer token w).2)
  = Nat.max 1 (count_id SPOTIFY_SCRIPT_ID (document w)).
Proof.
  unfold getSpotifyPlayer.
  destruct (getElementById SPOTIFY_SCRIPT_ID (document w)) as [e|] eqn:He; simpl.
  - unfold getElementById, count_id in *.
    destruct (filter _ (document w)); [done|]. simpl. lia.
  - rewrite count_id_appendChild, (getElementById_None _ _ He).
    by rewrite bool_decide_eq_true_2.
Qed.

Lemma document_effect_body_count token w :
  count_id SPOTIFY_SCRIPT_ID (document w) ≤ 1 →
  count_id SPOTIFY_SCRIPT_ID (document (effect_body token w)) ≤ 1.
Proof.
  intros Hw. unfold effect_body.
  set (w1 := if window_player_with token w is Some wp then _ else _).
  assert (Hw1 : count_id SPOTIFY_SCRIPT_ID (document w1) ≤ 1).
  { subst w1. destruct (window_player_with token w); [done|].
    destruct (cache_miss token w); [|done].
    set (w2 := match window_spotifyPlayer w with Some h => _ | None => _ end).
    assert (Hw2 : document w2 = document w)
      by (subst w2; by destruct (window_spotifyPlayer w)).
    case_bool_decide; [simpl; by rewrite Hw2|].
    pose proof (getSpotifyPlayer_count token w2) as Hc. rewrite Hw2 in Hc.
    destruct (getSpotifyPlayer token w2) as [p w3]. simpl in *. lia. }
  destruct (tokenAndPromise w1) as [[t [p|]]|]; try done.
  by rewrite document_promise_then.
Qed.

Lemma step_script_count w s :
  count_id SPOTIFY_SCRIPT_ID (document w) ≤ 1 →
  count_id SPOTIFY_SCRIPT_ID (document (step w s)) ≤ 1.
Proof.
  intros Hw. destruct s; simpl;
    rewrite ?document_cleanup, ?document_sdkReady, ?document_settle,
      ?document_emit; try done.
  unfold useEffect. destruct token as [token|]; [|done].
  case_bool_decide; [done|]. by apply document_effect_body_count.
Qed.

End ScriptFacts.

(** C9: in [lib/spotify/player.ts], however many players are constructed,
    the document holds at most one element with the identifier of the SDK
    script: [getSpotifyPlayer] appends the script only when no element
    carries that identifier, so a second call leaves the document as the
    first one left it. *)
Theorem C9_script_injected_once
    (w : Player.World) (steps : list Player.Step) (t1 t2 : Token) :
  count_id SPOTIFY_SCRIPT_ID (Player.document w) ≤ 1 →
  count_id SPOTIFY_SCRIPT_ID (Player.document (Player.run w steps)) ≤ 1
  ∧ count_id SPOTIFY_SCRIPT_ID
      (Player.document (Player.getSpotifyPlayer t1 w).2) = 1
  ∧ Player.document
      (Player.getSpotifyPlayer t2 (Player.getSpotifyPlayer t1 w).2).2
    = Player.document (Player.getSpotifyPlayer t1 w).2.
Proof.
  intros Hw. split; [|split].
  - unfold Player.run.
    apply (foldl_invariant
             (λ w, count_id SPOTIFY_SCRIPT_ID (Player.document w) ≤ 1)); [done|].
    intros w' s. apply ScriptFacts.step_script_count.
  - rewrite ScriptFacts.getSpotifyPlayer_count. lia.
  - pose proof (ScriptFacts.getSpotifyPlayer_count t1 w) as H1.
    destruct (Player.getSpotifyPlayer t1 w) as [p1 w1]. simpl in *.
    unfold Player.getSpotifyPlayer.
    destruct (getElementById SPOTIFY_SCRIPT_ID (Player.document w1)) eqn:He;
      [done|].
    apply ScriptFacts.getElementById_None in He. lia.
Qed.

Lemma C9_script_injected_once_witness :
  count_id SPOTIFY_SCRIPT_ID
    (Player.document
       (Player.run Player.init
          [Player.Effect (Some "abc"); Player.Effect (Some "def");
           Player.Effect (Some "abc")])) ≤ 1.
Proof.
  refine (proj1 (C9_script_injected_once Player.init
            [Player.Effect (Some "abc"); Player.Effect (Some "def");
             Player.Effect (Some "abc")] "abc" "def" _)).
  vm_compute. lia.
Defined.

(** The earlier [getSpotifyPlayer] appends a script on every call and gives
    it no identifier: two tokens leave two SDK scripts in the document. *)
Lemma C9_legacy_script_per_construction :
  let w := Legacy.run Legacy.init LegacyLaws.two_tokens in
  count_src SDK_SRC (Legacy.document w) = 2
  ∧ length (Legacy.document w) = 2
  ∧ count_id SPOTIFY_SCRIPT_ID (Legacy.document w) = 0.
Proof. by vm_compute. Qed.

(** ** [lib/spotify/player.ts]: the hook *)

Module HookFacts.
Import Player PlayerSpec.

(** Which listeners a player has depends on [players] only. *)
Lemma named_players (w w' : World) :
  players w' = players w → listeners_named w → listeners_named w'.
Proof. unfold listeners_named. by intros ->. Qed.

Lemma named_log (c : Call) (w : World) :
  listeners_named w → listeners_named (log c w).
Proof. done. Qed.

Lemma named_update_player (h : Handle) (f : SpotifyPlayer → SpotifyPlayer)
    (w : World) :
  (∀ p, Forall well_named (listeners p) → Forall well_named (listeners (f p))) →
  listeners_named w → listeners_named (update_player h f w).
Proof.
  intros Hf Hw. unfold listeners_named, update_player. simpl.
  apply Forall_alter; [done|]. intros p _. apply Hf.
Qed.

Lemma named_addListener (h : Handle) (l : Listener) (w : World) :
  listeners_named w → listeners_named (addListener h (listener_event l) l w).
Proof.
  intros Hw. unfold addListener. apply named_log.
  apply named_update_player; [|done]. intros p Hp. simpl.
  apply Forall_app_2; [done|]. by repeat constructor.
Qed.

Lemma named_removeListener (h : Handle) (event : string) (w : World) :
  listeners_named w → listeners_named (removeListener h event w).
Proof.
  intros Hw. unfold removeListener. apply named_log.
  apply named_update_player; [|done]. intros p Hp. simpl.
  apply Forall_forall. intros el Hel.
  apply list_elem_of_filter in Hel as [_ Hel].
  by apply (proj1 (Forall_forall _ _) Hp).
Qed.

Lemma named_disconnect (h : Handle) (w : World) :
  listeners_named w → listeners_named (disconnect h w).
Proof.
  intros Hw. unfold disconnect. apply named_log.
  by apply named_update_player.
Qed.

Lemma named_wrapSpotifyPlayer (is_fake : bool) (token : Token) (w : World) :
  listeners_named w → listeners_named (wrapSpotifyPlayer is_fake token w).2.
Proof.
  intros Hw. unfold wrapSpotifyPlayer. simpl.
  apply (named_addListener _ stateChangeCallback).
  unfold listeners_named. simpl. apply Forall_app_2; [done|].
  by repeat constructor.
Qed.

Lemma players_foldl {B} (f : World → B → World) (l : list B) (w : World) :
  (∀ w x, players (f w x) = players w) →
  players (foldl f w l) = players w.
Proof.
  intros Hf. apply (foldl_invariant (λ w', players w' = players w)); [done|].
  intros w' x Hw'. by rewrite Hf.
Qed.

Lemma players_resolve p wp w : players (resolve p wp w) = players w.
Proof.
  unfold resolve. destruct (promises w !! p) as [st|]; [|done].
  destruct (settled st); [done|]. by rewrite players_foldl.
Qed.

Lemma players_promise_then p w : players (promise_then p w) = players w.
Proof.
  unfold promise_then. destruct (promises w !! p) as [st|]; [|done].
  by destruct (settled st).
Qed.

Lemma players_getSpotifyPlayer token w :
  players (getSpotifyPlayer token w).2 = players w.
Proof.
  unfold getSpotifyPlayer.
  by destruct (getElementById SPOTIFY_SCRIPT_ID (document w)).
Qed.

Lemma players_call_onTickCallbacks h timeMs w :
  players (call_onTickCallbacks h timeMs w) = players w.
Proof. by rewrite PlayerFacts.call_onTickCallbacks_eq. Qed.

Lemma players_run_listener h ev w l :
  players (run_listener h ev w l) = players w.
Proof.
  destruct l; simpl; try done.
  - unfold run_stateChangeCallback. destruct (event_state ev); [|done].
    by rewrite players_foldl.
  - unfold onPlayerStateChanged_body. by destruct (event_state ev).
Qed.

Lemma players_emit h ev w : players (emit h ev w) = players w.
Proof. unfold emit. apply players_foldl. intros. apply players_run_listener. Qed.

Lemma named_thenCallback_resume wp ok w :
  listeners_named w → listeners_named (thenCallback_resume wp ok w).
Proof.
  intros Hw. unfold thenCallback_resume. destruct ok; simpl; [|done].
  apply (named_addListener _ onReady), (named_addListener _ onAccountError),
    (named_addListener _ onAuthenticationError),
    (named_addListener _ onInitializationError),
    (named_addListener _ onPlaybackError),
    (named_addListener _ onPlayerStateChanged).
  done.
Qed.

Lemma named_settle i r w : listeners_named w → listeners_named (settle i r w).
Proof.
  intros Hw. unfold settle. destruct (pending w !! i) as [k|]; [|done].
  destruct k, r; try done.
  - apply named_thenCallback_resume. destruct b; [|done].
    by apply named_update_player.
  - unfold onPlayerStateChanged_body. by destruct state.
  - simpl. eapply named_players; [apply players_call_onTickCallbacks|done].
  - unfold tick_resume. destruct state; simpl; [|done].
    eapply named_players; [apply players_call_onTickCallbacks|done].
  - by destruct state.
Qed.

Lemma named_effect_body token w :
  listeners_named w → listeners_named (effect_body token w).
Proof.
  intros Hw. unfold effect_body.
  set (w1 := if window_player_with token w is Some wp then _ else _).
  assert (Hw1 : listeners_named w1).
  { subst w1. destruct (window_player_with token w); [done|].
    destruct (cache_miss token w); [|done].
    set (w2 := match window_spotifyPlayer w with Some h => _ | None => _ end).
    assert (Hw2 : listeners_named w2).
    { subst w2. destruct (window_spotifyPlayer w); [|done].
      by apply named_disconnect. }
    case_bool_decide.
    - pose proof (named_wrapSpotifyPlayer true token
                    (log (GetFakePlayer (length (players w2))) w2) Hw2) as Hn.
      destruct (wrapSpotifyPlayer true token _) as [wp w3]. done.
    - pose proof (players_getSpotifyPlayer token w2) as Hp.
      destruct (getSpotifyPlayer token w2) as [p w3].
      eapply named_players; [|exact Hw2]. done. }
  destruct (tokenAndPromise w1) as [[t [p|]]|]; try done.
  eapply named_players; [apply players_promise_then|done].
Qed.

Lemma named_cleanup w : listeners_named w → listeners_named (cleanup w).
Proof.
  intros Hw. unfold cleanup. apply foldl_invariant; [done|].
  intros w' event Hw'. destruct (window_spotifyPlayer w'); [|done].
  by apply named_removeListener.
Qed.

Lemma named_sdkReady w : listeners_named w → listeners_named (sdkReady w).
Proof.
  intros Hw. unfold sdkReady.
  destruct (onSpotifyWebPlaybackSDKReady w) as [[token p]|]; [|done].
  pose proof (named_wrapSpotifyPlayer false token
                (log (NewSpotifyPlayer (length (players w)) token) w) Hw) as Hn.
  destruct (wrapSpotifyPlayer false token _) as [wp w1].
  eapply named_players; [apply players_resolve|done].
Qed.

Lemma named_step w s : listeners_named w → listeners_named (step w s).
Proof.
  intros Hw. destruct s; simpl.
  - unfold useEffect. destruct token as [token|]; [|done].
    case_bool_decide; [done|]. by apply named_effect_body.
  - by apply named_cleanup.
  - by apply named_sdkReady.
  - by apply named_settle.
  - eapply named_players; [apply players_emit|done].
  - done.
  - by apply named_disconnect.
  - done.
  - done.
  - done.
  - unfold addOnTick. by apply named_update_player.
  - unfold removeOnTick. by apply named_update_player.
Qed.

(** Whatever has happened since the page was loaded, listeners sit under
    their own event names. *)
Lemma named_run steps : listeners_named (run init steps).
Proof.
  unfold run. apply foldl_invariant; [by constructor|].
  intros w s. apply named_step.
Qed.

Lemma named_listeners_of h w el :
  listeners_named w → el ∈ listeners_of h w → well_named el.
Proof.
  intros Hw Hel. unfold listeners_of, player_of in Hel.
  destruct (players w !! h) as [p|] eqn:Hp; simpl in Hel.
  - pose proof (proj1 (Forall_lookup _ _) Hw h p Hp) as Hnamed.
    by apply (proj1 (Forall_forall _ _) Hnamed).
  - by apply elem_of_nil in Hel.
Qed.

Lemma onPlayerStateChanged_in_filter h w :
  hook_listening h w →
  onPlayerStateChanged
  ∈ (filter (λ el : string * Listener, el.1 = "player_state_changed")
       (listeners_of h w)).*2.
Proof.
  intros Hl. apply (list_elem_of_fmap_2' snd _ ("player_state_changed", onPlayerStateChanged)); [|done].
  apply list_elem_of_filter. split; [done|]. apply Hl.
  unfold hook_listeners. by left.
Qed.

Lemma filter_state_changed_kinds h w l :
  listeners_named w →
  l ∈ (filter (λ el : string * Listener, el.1 = "player_state_changed")
         (listeners_of h w)).*2 →
  l = stateChangeCallback ∨ l = onPlayerStateChanged.
Proof.
  intros Hw Hl. apply list_elem_of_fmap in Hl as ([event l'] & -> & Hel).
  apply list_elem_of_filter in Hel as [Hname Hel].
  pose proof (named_listeners_of _ _ _ Hw Hel) as Hn.
  unfold well_named in Hn. simpl in *. rewrite Hn in Hname.
  destruct l'; simpl in Hname; (by left) || (by right) || done.
Qed.

Lemma filter_ready_kinds h w l :
  listeners_named w →
  l ∈ (filter (λ el : string * Listener, el.1 = "ready") (listeners_of h w)).*2 →
  l = onReady.
Proof.
  intros Hw Hl. apply list_elem_of_fmap in Hl as ([event l'] & -> & Hel).
  apply list_elem_of_filter in Hel as [Hname Hel].
  pose proof (named_listeners_of _ _ _ Hw Hel) as Hn.
  unfold well_named in Hn. simpl in *. rewrite Hn in Hname.
  by destruct l'.
Qed.

(** [stateChangeCallback] touches nothing but the trace. *)
Lemma run_stateChangeCallback_trace h state w :
  ∃ t, run_stateChangeCallback h state w = set_trace t w.
Proof.
  unfold run_stateChangeCallback. destruct state as [state|].
  - unfold for_of_values. rewrite PlayerFacts.foldl_log. simpl. by eexists.
  - exists (trace w). by destruct w.
Qed.

(** A player state reaching the hook's listener, whichever other
    listeners run before or after it. *)
Lemma emit_state_changed h state w :
  listeners_named w → hook_listening h w →
  let w' := emit h (player_state_changed state) w in
  playbackStateAtom w' = state
  ∧ playerStatusAtom w' = (if state is Some _ then READY else NOT_CONNECTED)
  ∧ (is_Some state → spotifyPlayerAtom w' = window_spotifyPlayer w).
Proof.
  intros Hw Hl w'. subst w'. unfold emit. simpl event_name.
  apply (foldl_established
           (λ w', window_spotifyPlayer w' = window_spotifyPlayer w)
           (λ w', playbackStateAtom w' = state
                  ∧ playerStatusAtom w'
                    = (if state is Some _ then READY else NOT_CONNECTED)
                  ∧ (is_Some state → spotifyPlayerAtom w' = window_spotifyPlayer w)));
    [| | |done].
  - intros w' l Hin HR.
    destruct (filter_state_changed_kinds _ _ _ Hw Hin) as [-> | ->]; simpl.
    + by destruct (run_stateChangeCallback_trace h state w') as [t ->].
    + unfold onPlayerStateChanged_body. by destruct state.
  - intros w' l Hin HR HQ.
    destruct (filter_state_changed_kinds _ _ _ Hw Hin) as [-> | ->]; simpl.
    + by destruct (run_stateChangeCallback_trace h state w') as [t ->].
    + unfold onPlayerStateChanged_body. destruct state; simpl; [|done].
      by rewrite HR.
  - exists onPlayerStateChanged. split; [by apply onPlayerStateChanged_in_filter|].
    intros w' HR. simpl. unfold onPlayerStateChanged_body.
    destruct state; simpl; [|done]. by rewrite HR.
Qed.

Lemma emit_ready h device_id w :
  listeners_named w → hook_listening h w →
  playerStatusAtom (emit h (ready device_id) w) = NOT_CONNECTED.
Proof.
  intros Hw Hl. unfold emit. simpl event_name.
  apply (foldl_established (λ _, True)
           (λ w', playerStatusAtom w' = NOT_CONNECTED)); [done| | |done].
  - intros w' l Hin _ _. by rewrite (filter_ready_kinds _ _ _ Hw Hin).
  - exists onReady. split; [|done].
    apply (list_elem_of_fmap_2' snd _ ("ready", onReady)); [|done].
    apply list_elem_of_filter. split; [done|]. apply Hl.
    unfold hook_listeners. rewrite !elem_of_cons. naive_solver.
Qed.

Lemma listeners_of_addListener h h' event l w :
  listeners_of h (addListener h' event l w)
  = listeners_of h w
    ++ (if bool_decide (h' = h ∧ h < length (players w)) then [(event, l)] else []).
Proof.
  unfold addListener, listeners_of, player_of, update_player. simpl.
  destruct (decide (h' = h)) as [->|Hne].
  - rewrite list_lookup_alter_eq.
    destruct (players w !! h) as [p|] eqn:Hp; simpl.
    + rewrite bool_decide_eq_true_2; [done|]. split; [done|].
      by eapply lookup_lt_Some.
    + rewrite bool_decide_eq_false_2; [done|]. intros [_ Hlt].
      apply lookup_ge_None in Hp. lia.
  - rewrite list_lookup_alter_ne by done.
    rewrite bool_decide_eq_false_2; [by rewrite app_nil_r|]. by intros [? _].
Qed.

(** A successful [connect] leaves the six listeners of the hook on the
    player. *)
Lemma connect_registers w i wp :
  pending w !! i = Some (KConnect wp) → wp < length (players w) →
  hook_listening wp (settle i (RBool true) w)
  ∧ is_connected wp (settle i (RBool true) w) = true
  ∧ window_spotifyPlayer (settle i (RBool true) w) = Some wp.
Proof.
  intros Hi Hwp. unfold settle. rewrite Hi. simpl.
  unfold thenCallback_resume. simpl. split; [|split; [|done]].
  - unfold hook_listening.
    rewrite !listeners_of_addListener. simpl.
    rewrite !length_alter.
    rewrite !bool_decide_eq_true_2 by done.
    intros el. unfold hook_listeners.
    rewrite !elem_of_app, !elem_of_cons, elem_of_nil. tauto.
  - unfold is_connected, player_of, addListener, update_player. simpl.
    rewrite !list_lookup_alter_eq.
    destruct (lookup_lt_is_Some_2 _ _ Hwp) as [p ->]. done.
Qed.

(** The strings [for...in] produces are not event names, so
    [removeListener] finds nothing to remove under them. *)
Lemma filter_index_key (key : string) (ls : list (string * Listener)) :
  key ∈ for_in_keys playerEvents → Forall well_named ls →
  filter (λ el, el.1 ≠ key) ls = ls.
Proof.
  intros Hkey Hls. induction Hls as [|[event l] ls Hel _ IH]; [done|].
  rewrite filter_cons, IH. rewrite decide_True; [done|].
  unfold well_named in Hel. simpl in *. subst event.
  intros <-. revert Hkey. unfold for_in_keys. simpl.
  rewrite !elem_of_cons, elem_of_nil. by destruct l; intros [|[|[|[|[|[|]]]]]].
Qed.

Lemma removeListener_index_key h key w :
  key ∈ for_in_keys playerEvents → listeners_named w →
  players (removeListener h key w) = players w.
Proof.
  intros Hkey Hw. unfold removeListener. simpl.
  apply alter_fixed. intros p Hp.
  rewrite filter_index_key; [by destruct p|done|].
  by apply (proj1 (Forall_lookup _ _) Hw h p).
Qed.

Lemma cleanup_players w :
  listeners_named w → players (cleanup w) = players w.
Proof.
  intros Hw. unfold cleanup.
  apply (foldl_invariant_elem (λ w', players w' = players w)); [done|].
  intros w' key Hkey Hw'. destruct (window_spotifyPlayer w'); [|done].
  rewrite removeListener_index_key; [done..|].
  by apply (named_players w).
Qed.

End HookFacts.

(** ** The claims about the hook *)

(** C5: once a successful connect has registered the listeners of the
    hook on a player, a state-changed event with a payload sets the status
    to READY and publishes that payload as the playback state; one with a
    null payload sets NOT_CONNECTED and publishes null as the playback
    state, which clears whatever snapshot was published before: the
    derived atoms read paused, no track, and empty track and artist names;
    a [ready] event sets NOT_CONNECTED. *)
Theorem C5_device_events_publish
    (steps : list Player.Step) (h : Handle) (state : PlaybackState)
    (device_id : string) :
  let w := Player.run Player.init steps in
  PlayerSpec.hook_listening h w →
  (let w1 := Player.emit h (player_state_changed (Some state)) w in
   Player.playerStatusAtom w1 = READY
   ∧ Player.playbackStateAtom w1 = Some state
   ∧ Player.spotifyPausedAtom w1 = paused state
   ∧ Player.currenTrackAtom w1 = current_track state
   ∧ Player.spotifyPlayerAtom w1 = Player.window_spotifyPlayer w)
  ∧ (let w2 := Player.emit h (player_state_changed None) w in
     Player.playerStatusAtom w2 = NOT_CONNECTED
     ∧ Player.playbackStateAtom w2 = None
     ∧ Player.spotifyPausedAtom w2 = true
     ∧ Player.currenTrackAtom w2 = None
     ∧ Player.spotifyTrackNameAtom w2 = ""
     ∧ Player.spotifyArtistAtom w2 = "")
  ∧ Player.playerStatusAtom (Player.emit h (ready device_id) w) = NOT_CONNECTED.
Proof.
  intros w Hl. pose proof (HookFacts.named_run steps) as Hw. fold w in Hw.
  split; [|split].
  - destruct (HookFacts.emit_state_changed h (Some state) w Hw Hl)
      as (Hs & Hst & Hp).
    unfold Player.spotifyPausedAtom, Player.currenTrackAtom.
    rewrite Hs. repeat split; try done. by apply Hp.
  - destruct (HookFacts.emit_state_changed h None w Hw Hl) as (Hs & Hst & _).
    unfold Player.spotifyTrackNameAtom, Player.spotifyArtistAtom,
      Player.currenTrackAtom, Player.spotifyPausedAtom.
    by rewrite Hs.
  - by apply HookFacts.emit_ready.
Qed.

Lemma C5_device_events_publish_witness :
  Player.playerStatusAtom
    (Player.emit 0 (player_state_changed (Some PlayerSpec.playing_1000))
       (Player.run Player.init PlayerSpec.abc_steps)) = READY
  ∧ Player.playbackStateAtom
      (Player.emit 0 (player_state_changed None)
         (Player.run Player.init PlayerSpec.abc_steps)) = None
  ∧ Player.playerStatusAtom
      (Player.emit 0 (ready "device")
         (Player.run Player.init PlayerSpec.abc_steps)) = NOT_CONNECTED.
Proof.
  assert (Hl : PlayerSpec.hook_listening 0
                 (Player.run Player.init PlayerSpec.abc_steps)).
  { unfold PlayerSpec.hook_listening. apply (bool_decide_unpack _).
    by vm_compute. }
  pose proof (C5_device_events_publish PlayerSpec.abc_steps 0
                PlayerSpec.playing_1000 "device" Hl) as H.
  exact (conj (proj1 (proj1 H))
           (conj (proj1 (proj2 (proj1 (proj2 H)))) (proj2 (proj2 H)))).
Defined.

(** A null payload does not leave the previous snapshot in place: after a
    playing state with the track "Song" was published, the null payload
    makes the published state null, and the derived atoms change with it. *)
Lemma C5_null_payload_clears_snapshot :
  let w := PlayerLaws.with_snapshot in
  let w' := Player.emit 0 (player_state_changed None) w in
  PlayerSpec.hook_listening 0 w
  ∧ Player.playbackStateAtom w = Some PlayerSpec.playing_1000
  ∧ Player.playbackStateAtom w' = None
  ∧ Player.playbackStateAtom w' ≠ Player.playbackStateAtom w
  ∧ Player.spotifyPausedAtom w = false
  ∧ Player.spotifyPausedAtom w' = true
  ∧ Player.spotifyTrackNameAtom w = "Song"
  ∧ Player.spotifyTrackNameAtom w' = "".
Proof.
  cbv zeta. split.
  { unfold PlayerSpec.hook_listening. apply (bool_decide_unpack _).
    by vm_compute. }
  split; [by vm_compute|]. split; [by vm_compute|].
  split; [vm_compute; intros Heq; discriminate Heq|].
  repeat split; by vm_compute.
Qed.

(** C2, evaluated on the code: the teardown asks [removeListener] for the
    names "0" to "5", the keys of [playerEvents], so whatever happened
    before it no listener leaves any player, and an event emitted
    afterwards still reaches the hook. *)
Theorem C2_cleanup_removes_no_listener (steps : list Player.Step) :
  let w := Player.run Player.init steps in
  Player.players (Player.cleanup w) = Player.players w
  ∧ for_in_keys playerEvents = ["0"; "1"; "2"; "3"; "4"; "5"]
  ∧ Player.listeners_of 0 (Player.cleanup PlayerSpec.connected_abc)
    = Player.listeners_of 0 PlayerSpec.connected_abc
  ∧ Player.playerStatusAtom
      (Player.emit 0 (authentication_error "expired")
         (Player.cleanup PlayerSpec.connected_abc)) = AUTH_ERROR.
Proof.
  intros w. split; [|by vm_compute].
  apply HookFacts.cleanup_players, HookFacts.named_run.
Qed.

(** ** The earlier source: the tick timer *)

Module TimerFacts.
Import Legacy LegacySpec.



Lemma consistent_None (w : World) :
  timer_consistent w → tickIntervalId w = None → intervals w = [].
Proof.
  unfold timer_consistent. intros Hc Hid. rewrite Hid in Hc. simpl in Hc.
  by apply fmap_nil_inv in Hc.
Qed.

Lemma consistent_Some (w : World) (id : nat) :
  timer_consistent w → tickIntervalId w = Some id →
  ∃ h, intervals w = [(id, h)].
Proof.
  unfold timer_consistent. intros Hc Hid. rewrite Hid in Hc. simpl in Hc.
  destruct (intervals w) as [|[id' h] [|? ?]]; try done.
  injection Hc as ->. by exists h.
Qed.
















End TimerFacts.



(** ** Obtaining a player *)

Module ObtainFacts.
Import Player PlayerSpec.

Lemma cache_hit (token : Token) (p : PromiseId) (w : World) :
  tokenAndPromise w = Some (token, Some p) → cache_miss token w = false.
Proof.
  unfold cache_miss. intros ->.
  rewrite bool_decide_eq_false_2 by (intros Hne; by apply Hne).
  by rewrite bool_decide_eq_false_2.
Qed.

(** With the token cached and no player of that token in [window], the
    effect only attaches its callback to the cached promise. *)
Lemma effect_body_hit (token : Token) (p : PromiseId) (w : World) :
  tokenAndPromise w = Some (token, Some p) →
  window_player_with token w = None →
  effect_body token w = promise_then p w.
Proof.
  intros Hc Hwin. unfold effect_body.
  by rewrite Hwin, (cache_hit _ _ _ Hc), Hc.
Qed.

(** With a player of that token in [window], the effect wraps it in a
    fresh resolved promise and connects it again. *)
Lemma effect_body_window (token : Token) (h0 : Handle) (w : World) :
  window_player_with token w = Some h0 →
  effect_body token w
  = thenCallback h0
      (set_tokenAndPromise (Some (token, Some (length (promises w))))
         (Promise_resolve h0 w).2).
Proof.
  intros Hwin. unfold effect_body. rewrite Hwin. simpl.
  unfold promise_then. simpl.
  by rewrite (list_lookup_middle _ [] _ (length (promises w))).
Qed.

Lemma tokenAndPromise_promise_then p w :
  tokenAndPromise (promise_then p w) = tokenAndPromise w.
Proof.
  unfold promise_then. destruct (promises w !! p) as [st|]; [|done].
  by destruct (settled st).
Qed.

Lemma uncaught_promise_then p w : uncaught (promise_then p w) = uncaught w.
Proof.
  unfold promise_then. destruct (promises w !! p) as [st|]; [|done].
  by destruct (settled st).
Qed.

Lemma promise_then_settled p wp ks w :
  promises w !! p = Some {| settled := Some wp; waiting := ks |} →
  promise_then p w = thenCallback wp w.
Proof. unfold promise_then. by intros ->. Qed.

Lemma is_connected_disconnect h w : is_connected h (disconnect h w) = false.
Proof.
  unfold is_connected, player_of, disconnect, update_player. simpl.
  rewrite list_lookup_alter_eq. by destruct (players w !! h).
Qed.

Lemma is_connected_wrap is_fake token h w :
  is_connected h w = false →
  is_connected h (wrapSpotifyPlayer is_fake token w).2 = false.
Proof.
  unfold is_connected, player_of, wrapSpotifyPlayer, addListener, update_player.
  simpl. intros Hh.
  destruct (decide (h = length (players w))) as [->|Hne].
  - rewrite list_lookup_alter_eq.
    by rewrite (list_lookup_middle _ [] _ (length (players w))).
  - rewrite list_lookup_alter_ne by done.
    destruct (decide (h < length (players w))) as [Hlt|Hge].
    + by rewrite lookup_app_l.
    + rewrite lookup_ge_None_2; [done|]. rewrite length_app. simpl. lia.
Qed.

End ObtainFacts.

Module LegacyObtainFacts.
Import Legacy LegacySpec.

Lemma legacy_cache_hit (token : TokenValue) (p : PromiseId) (w : World) :
  tokenAndPromise w = Some (token, Some p) → cache_miss token w = false.
Proof.
  unfold cache_miss. intros ->.
  rewrite bool_decide_eq_false_2 by (intros Hne; by apply Hne).
  by rewrite bool_decide_eq_false_2.
Qed.

Lemma legacy_useEffect_hit (token : TokenValue) (p : PromiseId) (w : World) :
  tokenAndPromise w = Some (token, Some p) →
  useEffect token w = promise_then p token w.
Proof.
  intros Hc. unfold useEffect. by rewrite (legacy_cache_hit _ _ _ Hc), Hc.
Qed.

Lemma legacy_players_promise_then p t w : players (promise_then p t w) = players w.
Proof.
  unfold promise_then. destruct (promises w !! p) as [st|]; [|done].
  by destruct (settled st).
Qed.

Lemma legacy_document_promise_then p t w : document (promise_then p t w) = document w.
Proof.
  unfold promise_then. destruct (promises w !! p) as [st|]; [|done].
  by destruct (settled st).
Qed.

Lemma legacy_tokenAndPromise_promise_then p t w :
  tokenAndPromise (promise_then p t w) = tokenAndPromise w.
Proof.
  unfold promise_then. destruct (promises w !! p) as [st|]; [|done].
  by destruct (settled st).
Qed.

Lemma legacy_uncaught_promise_then p t w :
  uncaught (promise_then p t w) = uncaught w.
Proof.
  unfold promise_then. destruct (promises w !! p) as [st|]; [|done].
  by destruct (settled st).
Qed.

Lemma legacy_promise_then_settled p t wp ks w :
  promises w !! p = Some {| settled := Some wp; waiting := ks |} →
  promise_then p t w = thenCallback t wp w.
Proof. unfold promise_then. by intros ->. Qed.

Lemma legacy_is_connected_disconnect h w : is_connected h (disconnect h w) = false.
Proof.
  unfold is_connected, player_of, disconnect, update_player. simpl.
  rewrite list_lookup_alter_eq. by destruct (players w !! h).
Qed.

End LegacyObtainFacts.

(** C6: when [connect] resolves to false the status becomes INIT_ERROR,
    nothing is thrown, no listener is added to any player, no call goes to
    the SDK, and the cached token and promise stay; the next effect run
    for that token constructs nothing and hands out a promise that is
    already resolved: the cached one, or in [lib/spotify/player.ts], when
    [window] holds a player of that token, a fresh one resolved to that
    player.  Either way [connect] is simply called again. *)
Theorem C6_failed_connect (w : Player.World) (i : nat) (wp : Handle) :
  Player.pending w !! i = Some (Player.KConnect wp) →
  let w' := Player.settle i (RBool false) w in
  Player.playerStatusAtom w' = INIT_ERROR
  ∧ Player.uncaught w' = Player.uncaught w
  ∧ Player.players w' = Player.players w
  ∧ Player.trace w' = Player.trace w
  ∧ Player.tokenAndPromise w' = Player.tokenAndPromise w
  ∧ Player.promises w' = Player.promises w
  ∧ (∀ token p,
       token ≠ "" → Player.tokenAndPromise w = Some (token, Some p) →
       let w'' := Player.useEffect (Some token) w' in
       Player.players w'' = Player.players w
       ∧ Player.document w'' = Player.document w
       ∧ Player.uncaught w'' = Player.uncaught w
       ∧ match Player.window_player_with token w with
         | None =>
             Player.tokenAndPromise w'' = Some (token, Some p)
             ∧ ∀ wp' ks,
                 Player.promises w !! p
                 = Some {| settled := Some wp'; waiting := ks |} →
                 Player.promises w'' = Player.promises w
                 ∧ Player.trace w'' = Player.trace w ++ [Player.Connect wp']
         | Some h0 =>
             Player.tokenAndPromise w''
             = Some (token, Some (length (Player.promises w)))
             ∧ Player.promises w''
               = Player.promises w ++ [{| settled := Some h0; waiting := [] |}]
             ∧ Player.trace w'' = Player.trace w ++ [Player.Connect h0]
         end)
  ∧ (∀ (lw : Legacy.World) (j : nat) (lwp : Handle) (captured : Legacy.TokenValue),
       Legacy.pending lw !! j = Some (Legacy.KConnect lwp captured) →
       let lw' := Legacy.settle j (RBool false) lw in
       Legacy.trace lw' = Legacy.trace lw ++ [Legacy.SetStatus INIT_ERROR]
       ∧ Legacy.uncaught lw' = Legacy.uncaught lw
       ∧ Legacy.players lw' = Legacy.players lw
       ∧ Legacy.tokenAndPromise lw' = Legacy.tokenAndPromise lw
       ∧ Legacy.promises lw' = Legacy.promises lw
       ∧ ∀ token p,
           Legacy.tokenAndPromise lw = Some (token, Some p) →
           let lw'' := Legacy.useEffect token lw' in
           Legacy.tokenAndPromise lw'' = Some (token, Some p)
           ∧ Legacy.players lw'' = Legacy.players lw
           ∧ Legacy.document lw'' = Legacy.document lw
           ∧ Legacy.uncaught lw'' = Legacy.uncaught lw
           ∧ ∀ wp' ks,
               Legacy.promises lw !! p
               = Some {| settled := Some wp'; waiting := ks |} →
               Legacy.promises lw'' = Legacy.promises lw
               ∧ Legacy.trace lw''
                 = Legacy.trace lw' ++ [Legacy.Connect wp']).
Proof.
  intros Hi w'.
  assert (Hw' : w' = Player.setStatus INIT_ERROR
                       (Player.set_pending (delete i (Player.pending w)) w)).
  { subst w'. unfold Player.settle. by rewrite Hi. }
  clearbody w'. subst w'. simpl.
  do 6 (split; [done|]). split.
  - intros token p Htoken Hc.
    set (w1 := Player.setStatus _ _).
    unfold Player.useEffect. rewrite bool_decide_eq_false_2 by done.
    assert (Hwin : Player.window_player_with token w1
                   = Player.window_player_with token w) by done.
    destruct (Player.window_player_with token w) as [h0|] eqn:Hw0.
    + rewrite (ObtainFacts.effect_body_window _ h0) by done. by simpl.
    + rewrite (ObtainFacts.effect_body_hit _ p) by done.
      rewrite HookFacts.players_promise_then, ScriptFacts.document_promise_then,
        ObtainFacts.tokenAndPromise_promise_then,
        ObtainFacts.uncaught_promise_then.
      do 4 (split; [done|]). intros wp' ks Hp.
      by rewrite (ObtainFacts.promise_then_settled p wp' ks).
  - intros lw j lwp captured Hj.
    unfold Legacy.settle. rewrite Hj. simpl.
    do 5 (split; [done|]). intros token p Hc.
    rewrite (LegacyObtainFacts.legacy_useEffect_hit _ p) by done.
    rewrite LegacyObtainFacts.legacy_players_promise_then,
      LegacyObtainFacts.legacy_document_promise_then,
      LegacyObtainFacts.legacy_tokenAndPromise_promise_then,
      LegacyObtainFacts.legacy_uncaught_promise_then.
    do 4 (split; [done|]). intros wp' ks Hp.
    by rewrite (LegacyObtainFacts.legacy_promise_then_settled p token wp' ks).
Qed.

Lemma C6_failed_connect_witness :
  Player.playerStatusAtom
    (Player.settle 0 (RBool false)
       (Player.run Player.init PlayerSpec.connecting_steps)) = INIT_ERROR
  ∧ Player.tokenAndPromise
      (Player.useEffect (Some "abc")
         (Player.settle 0 (RBool false)
            (Player.run Player.init PlayerSpec.connecting_steps)))
    = Some ("abc", Some 0).
Proof.
  assert (Hpending :
            Player.pending (Player.run Player.init PlayerSpec.connecting_steps)
            !! 0 = Some (Player.KConnect 0)) by (by vm_compute).
  pose proof (C6_failed_connect _ 0 0 Hpending) as H. cbv zeta in H.
  destruct H as (Hstatus & _ & _ & _ & _ & _ & Hnext & _).
  split; [exact Hstatus|].
  assert (Htoken : "abc" ≠ "") by done.
  assert (Hcache :
            Player.tokenAndPromise
              (Player.run Player.init PlayerSpec.connecting_steps)
            = Some ("abc", Some 0)) by (by vm_compute).
  destruct (Hnext "abc" 0 Htoken Hcache) as (_ & _ & _ & Hmatch).
  assert (Hwin :
            Player.window_player_with "abc"
              (Player.run Player.init PlayerSpec.connecting_steps) = None)
    by (by vm_compute).
  rewrite Hwin in Hmatch. exact (proj1 Hmatch).
Defined.

(** C1, as the code has it.  In [lib/spotify/player.ts]: when [window]
    holds a player that carries the requested token, whatever the cache
    holds, that player is reused: nothing is constructed or disconnected,
    the cache gets a fresh promise resolved to it and [connect] is called
    on it again.  Otherwise, when the cache holds the token with a
    promise, the effect only attaches its callback to that promise.
    Otherwise, when [window] holds a player (which then does not carry the
    requested token), that player is disconnected first and the new one is
    constructed after.  In the earlier source the cache alone decides: a
    hit attaches the callback to the cached promise, and a miss
    disconnects the player in [window], if any, before the construction.
    Nothing is said about a player whose [connect] is still outstanding:
    it is not in [window] and is left alone. *)
Theorem C1_obtain_reuses_or_disconnects_first
    (w : Player.World) (token : Token) :
  token ≠ "" →
  let w' := Player.useEffect (Some token) w in
  (∀ h0,
     Player.window_player_with token w = Some h0 →
     w' = Player.thenCallback h0
            (Player.set_tokenAndPromise
               (Some (token, Some (length (Player.promises w))))
               (Player.Promise_resolve h0 w).2)
     ∧ Player.players w' = Player.players w
     ∧ Player.document w' = Player.document w
     ∧ Player.onSpotifyWebPlaybackSDKReady w'
       = Player.onSpotifyWebPlaybackSDKReady w
     ∧ Player.tokenAndPromise w'
       = Some (token, Some (length (Player.promises w)))
     ∧ Player.trace w' = Player.trace w ++ [Player.Connect h0])
  ∧ (∀ p,
       Player.window_player_with token w = None →
       Player.tokenAndPromise w = Some (token, Some p) →
       w' = Player.promise_then p w
       ∧ Player.players w' = Player.players w
       ∧ Player.document w' = Player.document w
       ∧ Player.onSpotifyWebPlaybackSDKReady w'
         = Player.onSpotifyWebPlaybackSDKReady w
       ∧ Player.tokenAndPromise w' = Player.tokenAndPromise w)
  ∧ (∀ h0,
       Player.window_spotifyPlayer w = Some h0 →
       Player.window_player_with token w = None →
       Player.cache_miss token w = true →
       Player.is_connected h0 w' = false
       ∧ Player.tokenAndPromise w'
         = Some (token, Some (length (Player.promises w)))
       ∧ (if bool_decide (token = "fake") then
           Player.trace w'
           = Player.trace w
             ++ [ Player.Disconnect h0;
                  Player.GetFakePlayer (length (Player.players w));
                  Player.AddListener (length (Player.players w))
                    "player_state_changed" Player.stateChangeCallback;
                  Player.Connect (length (Player.players w)) ]
         else
           Player.trace w'
           = Player.trace w
             ++ Player.Disconnect h0
                :: match getElementById SPOTIFY_SCRIPT_ID (Player.document w) with
                   | Some _ => []
                   | None =>
                       [ Player.AppendScript
                           {| tag := "script"; id := SPOTIFY_SCRIPT_ID;
                              src := SDK_SRC |} ]
                   end
           ∧ Player.onSpotifyWebPlaybackSDKReady w'
             = Some (token, length (Player.promises w))
           ∧ length (Player.players w') = length (Player.players w)))
  ∧ (∀ (lw : Legacy.World) (ltoken : Legacy.TokenValue),
       let lw' := Legacy.useEffect ltoken lw in
       (∀ p,
          Legacy.tokenAndPromise lw = Some (ltoken, Some p) →
          lw' = Legacy.promise_then p ltoken lw
          ∧ Legacy.tokenAndPromise lw' = Legacy.tokenAndPromise lw
          ∧ Legacy.players lw' = Legacy.players lw
          ∧ Legacy.document lw' = Legacy.document lw)
       ∧ (∀ h0,
            Legacy.window_player lw = Some h0 →
            Legacy.cache_miss ltoken lw = true →
            Legacy.is_connected h0 lw' = false
            ∧ Legacy.tokenAndPromise lw'
              = Some (ltoken, Some (length (Legacy.promises lw)))
            ∧ Legacy.trace lw'
              = Legacy.trace lw
                ++ [ Legacy.Disconnect h0;
                     Legacy.AppendScript
                       {| tag := "script"; id := ""; src := SDK_SRC |} ]
            ∧ Legacy.onSpotifyWebPlaybackSDKReady lw'
              = Some (ltoken, length (Legacy.promises lw))
            ∧ length (Legacy.players lw') = length (Legacy.players lw))).
Proof.
  intros Htoken w'. subst w'. unfold Player.useEffect.
  rewrite bool_decide_eq_false_2 by done.
  split; [|split; [|split]].
  - intros h0 Hwin. by rewrite (ObtainFacts.effect_body_window _ h0).
  - intros p Hwin Hc.
    rewrite (ObtainFacts.effect_body_hit _ p) by done.
    rewrite HookFacts.players_promise_then, ScriptFacts.document_promise_then,
      ObtainFacts.tokenAndPromise_promise_then.
    repeat split; try done.
    unfold Player.promise_then. destruct (Player.promises w !! p) as [st|]; [|done].
    by destruct (settled st).
  - intros h0 Hwindow Hwin Hmiss.
    unfold Player.effect_body. rewrite Hwin, Hmiss, Hwindow.
    case_bool_decide as Hfake.
    + simpl. unfold Player.promise_then. simpl.
      rewrite (list_lookup_middle _ [] _ (length (Player.promises w))) by done.
      simpl. split; [|by rewrite length_alter, <- !app_assoc].
      change (Player.is_connected h0
                (Player.wrapSpotifyPlayer true token (Player.disconnect h0 w)).2
              = false).
      apply ObtainFacts.is_connected_wrap, ObtainFacts.is_connected_disconnect.
    + unfold Player.getSpotifyPlayer.
      destruct (getElementById SPOTIFY_SCRIPT_ID (Player.document w)) eqn:He;
        simpl; rewrite He; simpl; unfold Player.promise_then; simpl;
        rewrite (list_lookup_middle _ [] _ (length (Player.promises w))) by done;
        simpl; rewrite length_alter, <- ?app_assoc;
        (split; [apply (ObtainFacts.is_connected_disconnect h0 w)|done]).
  - intros lw ltoken. cbv zeta. split.
    + intros p Hc. rewrite (LegacyObtainFacts.legacy_useEffect_hit _ p) by done.
      by rewrite LegacyObtainFacts.legacy_tokenAndPromise_promise_then,
        LegacyObtainFacts.legacy_players_promise_then,
        LegacyObtainFacts.legacy_document_promise_then.
    + intros h0 Hwindow Hmiss. unfold Legacy.useEffect.
      rewrite Hmiss, Hwindow. simpl. unfold Legacy.promise_then. simpl.
      rewrite (list_lookup_middle _ [] _ (length (Legacy.promises lw))) by done.
      simpl. rewrite length_alter, <- ?app_assoc.
      split; [apply (LegacyObtainFacts.legacy_is_connected_disconnect h0 lw)|done].
Qed.

Lemma C1_obtain_reuses_or_disconnects_first_witness :
  Player.players (Player.useEffect (Some "abc") PlayerSpec.connected_abc)
  = Player.players PlayerSpec.connected_abc
  ∧ Player.is_connected 0
      (Player.useEffect (Some "def") PlayerSpec.connected_abc) = false.
Proof.
  assert (Htoken : "abc" ≠ "") by done.
  assert (Htoken' : "def" ≠ "") by done.
  pose proof (C1_obtain_reuses_or_disconnects_first
                PlayerSpec.connected_abc "abc" Htoken) as H.
  pose proof (C1_obtain_reuses_or_disconnects_first
                PlayerSpec.connected_abc "def" Htoken') as H'.
  cbv zeta in H, H'.
  destruct H as (Hreuse & _). destruct H' as (_ & _ & Hmiss & _).
  assert (Hsame : Player.window_player_with "abc" PlayerSpec.connected_abc
                  = Some 0) by (by vm_compute).
  assert (Hwindow : Player.window_spotifyPlayer PlayerSpec.connected_abc
                    = Some 0) by (by vm_compute).
  assert (Hwin : Player.window_player_with "def" PlayerSpec.connected_abc
                 = None) by (by vm_compute).
  assert (Hcm : Player.cache_miss "def" PlayerSpec.connected_abc = true)
    by (by vm_compute).
  exact (conj (proj1 (proj2 (Hreuse 0 Hsame)))
              (proj1 (Hmiss 0 Hwindow Hwin Hcm))).
Defined.

(** C1 as stated fails: when the token changes while the first player is
    still connecting, that player is not in [window] yet, so nobody
    disconnects it; both players end up connected.  In the earlier source
    this takes two tokens whose scripts each call the ready handler; in
    [lib/spotify/player.ts] one call of the ready handler is enough when
    the second token is "fake". *)
Lemma C1_two_players_connected :
  let w := Legacy.run Legacy.init LegacySpec.race in
  let pw := Player.run Player.init PlayerLaws.fake_race in
  Legacy.is_connected 0 w = true
  ∧ Legacy.is_connected 1 w = true
  ∧ Legacy.authToken <$> Legacy.player_of 0 w = Some (Some "A")
  ∧ Legacy.authToken <$> Legacy.player_of 1 w = Some (Some "B")
  ∧ existsb LegacySpec.is_disconnect (Legacy.trace w) = false
  ∧ ¬ LegacySpec.exclusive w
  ∧ Player.is_connected 0 pw = true
  ∧ Player.is_connected 1 pw = true
  ∧ Player.authToken <$> Player.player_of 0 pw = Some "A"
  ∧ Player.authToken <$> Player.player_of 1 pw = Some "fake"
  ∧ existsb PlayerLaws.is_disconnect (Player.trace pw) = false
  ∧ ¬ PlayerSpec.exclusive pw.
Proof.
  cbv zeta.
  do 5 (split; [by vm_compute|]).
  split.
  { intros Hex. assert (H01 : 0 = 1); [|discriminate H01].
    apply Hex; by vm_compute. }
  do 5 (split; [by vm_compute|]).
  intros Hex. assert (H01 : 0 = 1); [|discriminate H01].
  apply Hex; by vm_compute.
Qed.

(** ** Where the earlier source differs *)

Module LegacyDifferences.
Import Legacy.

(** The earlier [seekTo] hands [ms] to the device as it is, and the tick
    that follows the seek asks the device for its state. *)
Lemma legacy_seekTo_unclamped (h : Handle) (ms : Z) (w : World) :
  trace (seekTo h ms w) = trace w ++ [Seek h ms]
  ∧ trace (settle (length (pending w)) RVoid (seekTo h ms w))
    = trace w ++ [Seek h ms; GetCurrentState h].
Proof.
  split; [done|]. unfold settle, seekTo. simpl.
  rewrite (list_lookup_middle _ [] _ (length (pending w))) by done.
  simpl. by rewrite <- app_assoc.
Qed.

(** The earlier [addOnTick] only records the subscriber. *)
Lemma legacy_addOnTick_silent (cb : Callback) (w : World) :
  onTickCallbacks (addOnTick cb w) = onTickCallbacks w ++ [cb]
  ∧ trace (addOnTick cb w) = trace w
  ∧ pending (addOnTick cb w) = pending w.
Proof. done. Qed.

(** The earlier [getSpotifyPlayer] appends a script element on every
    call, and none of them carries an identifier. *)
Lemma legacy_getSpotifyPlayer_appends (token : TokenValue) (w : World) :
  count_src SDK_SRC (document (getSpotifyPlayer token w).2)
  = S (count_src SDK_SRC (document w))
  ∧ count_id SPOTIFY_SCRIPT_ID (document (getSpotifyPlayer token w).2)
    = count_id SPOTIFY_SCRIPT_ID (document w).
Proof.
  unfold getSpotifyPlayer, count_src, count_id, appendChild. simpl.
  rewrite !filter_app, !length_app, !filter_cons, !filter_nil. simpl.
  split; lia.
Qed.

(** The earlier teardown has the same loop over the keys of
    [playerEvents]; with the [player] of a first render, [undefined], it
    does nothing at all. *)
Lemma legacy_cleanup_first_render (w : World) : cleanup None w = w.
Proof. done. Qed.

End LegacyDifferences.

(** ** [useSpotifyAuth] *)

Module AuthFacts.
Import Auth.

Lemma truthy_Some (s : string) : truthy (Some s) = true ↔ s ≠ "".
Proof.
  simpl. destruct (String.eqb_spec s ""); simpl; split; done.
Qed.

Lemma truthy_is_Some (o : option string) :
  truthy o = true → ∃ s, o = Some s ∧ s ≠ "".
Proof.
  destruct o as [s|]; [|done]. intros Ht. exists s. split; [done|].
  by apply truthy_Some.
Qed.

Lemma searchParams_get_delete (name : string) (ps : list (string * string)) :
  searchParams_get name (searchParams_delete name ps) = None.
Proof.
  unfold searchParams_get, searchParams_delete.
  rewrite list_filter_filter.
  assert (Hnil : filter (λ kv : string * string, kv.1 = name ∧ kv.1 ≠ name) ps = []).
  { induction ps as [|kv ps IH]; [done|].
    rewrite filter_cons, IH. rewrite decide_False; [done|]. by intros [? ?]. }
  by rewrite Hnil.
Qed.

Lemma searchParams_get_delete_other (name other : string)
    (ps : list (string * string)) :
  other ≠ name →
  searchParams_get other (searchParams_delete name ps)
  = searchParams_get other ps.
Proof.
  intros Hne. unfold searchParams_get, searchParams_delete.
  rewrite list_filter_filter. do 2 f_equal.
  apply list_filter_iff. intros kv. split; [by intros [? _]|].
  intros Hk. split; [done|]. by rewrite Hk.
Qed.

(** What the second branch of the effect leaves after a page load whose
    URL carries a non-empty token. *)
Lemma useEffect_page_load_token
    (url : Url) (ls : gmap string string) (t : string) :
  searchParams_get "token" (searchParams url) = Some t →
  t ≠ "" →
  useEffect (page_load url ls)
  = {| token := Some t; status := GOOD; location := url;
       window_location :=
         {| origin_and_path := origin_and_path url;
            searchParams := searchParams_delete "token" (searchParams url) |};
       localStorage := <["authToken" := t]> ls |}.
Proof.
  intros Hget Ht. unfold useEffect, tokenInParams. simpl.
  rewrite Hget. by rewrite (proj2 (truthy_Some t) Ht).
Qed.

End AuthFacts.

(** A token in the URL is adopted on a page load: it becomes the hook's
    token with status GOOD, replaces whatever [localStorage] held under
    [authToken], and leaves the window's URL without any [token]
    parameter, every other parameter and the rest of the URL being
    kept: the query of the new URL is the old one with the pairs named
    [token] taken out, the others staying in their order and as often as
    they occurred. *)
Theorem auth_url_token_adopted
    (url : Auth.Url) (ls : gmap string string) (t : string) :
  Auth.searchParams_get "token" (Auth.searchParams url) = Some t →
  t ≠ "" →
  let w := Auth.useEffect (Auth.page_load url ls) in
  Auth.token w = Some t
  ∧ Auth.status w = Auth.GOOD
  ∧ Auth.localStorage w = <["authToken" := t]> ls
  ∧ Auth.searchParams_get "token" (Auth.searchParams (Auth.window_location w))
    = None
  ∧ (∀ other, other ≠ "token" →
       Auth.searchParams_get other (Auth.searchParams (Auth.window_location w))
       = Auth.searchParams_get other (Auth.searchParams url))
  ∧ Auth.origin_and_path (Auth.window_location w) = Auth.origin_and_path url
  ∧ Auth.searchParams (Auth.window_location w)
    = filter (λ kv, kv.1 ≠ "token") (Auth.searchParams url)
  ∧ (∀ kv, kv ∈ Auth.searchParams (Auth.window_location w)
           ↔ kv ∈ Auth.searchParams url ∧ kv.1 ≠ "token")
  ∧ (∀ kv, kv.1 ≠ "token" →
       length (filter (λ kv', kv' = kv)
                 (Auth.searchParams (Auth.window_location w)))
       = length (filter (λ kv', kv' = kv) (Auth.searchParams url))).
Proof.
  intros Hget Ht w. subst w.
  rewrite (AuthFacts.useEffect_page_load_token url ls t Hget Ht). simpl.
  do 3 (split; [done|]).
  split; [apply AuthFacts.searchParams_get_delete|].
  split; [intros other Hne; by apply AuthFacts.searchParams_get_delete_other|].
  do 2 (split; [done|]). split.
  - intros kv. unfold Auth.searchParams_delete.
    rewrite list_elem_of_filter. tauto.
  - intros kv Hkv. unfold Auth.searchParams_delete.
    rewrite list_filter_filter. f_equal.
    apply list_filter_iff. intros kv'. split; [by intros [? _]|].
    intros ->. done.
Qed.

Lemma auth_url_token_adopted_witness :
  Auth.token
    (Auth.useEffect
       (Auth.page_load
          {| Auth.origin_and_path := "https://choreo.test/";
             Auth.searchParams := [("tab", "1"); ("token", "abc")] |}
          (<["authToken" := "stale"]> ∅))) = Some "abc".
Proof.
  refine (proj1 (auth_url_token_adopted
            {| Auth.origin_and_path := "https://choreo.test/";
               Auth.searchParams := [("tab", "1"); ("token", "abc")] |}
            (<["authToken" := "stale"]> ∅) "abc" _ _)).
  - reflexivity.
  - discriminate.
Defined.

(** Round trip through storage: after a token has been adopted from the
    URL, a later page load at the scrubbed URL with the storage that was
    left resolves to the same token with status GOOD and changes neither
    the storage nor the URL. *)
Theorem auth_storage_round_trip
    (url : Auth.Url) (ls : gmap string string) (t : string) :
  Auth.searchParams_get "token" (Auth.searchParams url) = Some t →
  t ≠ "" →
  let w1 := Auth.useEffect (Auth.page_load url ls) in
  let w2 :=
    Auth.useEffect
      (Auth.page_load (Auth.window_location w1) (Auth.localStorage w1)) in
  Auth.token w2 = Some t
  ∧ Auth.status w2 = Auth.GOOD
  ∧ Auth.localStorage w2 = Auth.localStorage w1
  ∧ Auth.window_location w2 = Auth.window_location w1.
Proof.
  intros Hget Ht w1 w2. subst w2 w1.
  rewrite (AuthFacts.useEffect_page_load_token url ls t Hget Ht).
  unfold Auth.useEffect, Auth.tokenInParams. simpl.
  rewrite AuthFacts.searchParams_get_delete. simpl.
  rewrite lookup_insert_eq.
  by rewrite (proj2 (AuthFacts.truthy_Some t) Ht).
Qed.

Lemma auth_storage_round_trip_witness :
  Auth.token
    (Auth.useEffect
       (Auth.page_load
          (Auth.window_location
             (Auth.useEffect
                (Auth.page_load
                   {| Auth.origin_and_path := "https://choreo.test/";
                      Auth.searchParams := [("token", "abc")] |} ∅)))
          (Auth.localStorage
             (Auth.useEffect
                (Auth.page_load
                   {| Auth.origin_and_path := "https://choreo.test/";
                      Auth.searchParams := [("token", "abc")] |} ∅)))))
  = Some "abc".
Proof.
  refine (proj1 (auth_storage_round_trip
            {| Auth.origin_and_path := "https://choreo.test/";
               Auth.searchParams := [("token", "abc")] |} ∅ "abc" _ _)).
  - reflexivity.
  - discriminate.
Defined.

(** What the effect resolves to when the hook holds no token: status GOOD
    exactly when the URL or the storage offers a non-empty token, the URL
    first; otherwise NO_AUTH, with the token, the storage and the URL left
    as they were.  An empty [token] parameter counts as none. *)
Theorem auth_resolution (w : Auth.World) :
  Auth.truthy (Auth.token w) = false →
  let w' := Auth.useEffect w in
  (Auth.status w' = Auth.GOOD
   ↔ Auth.truthy (Auth.tokenInParams w)
     || Auth.truthy (Auth.localStorage w !! "authToken") = true)
  ∧ (Auth.truthy (Auth.tokenInParams w) = true →
     Auth.token w' = Auth.tokenInParams w)
  ∧ (Auth.truthy (Auth.tokenInParams w) = false →
     Auth.truthy (Auth.localStorage w !! "authToken") = true →
     Auth.token w' = Auth.localStorage w !! "authToken"
     ∧ Auth.localStorage w' = Auth.localStorage w
     ∧ Auth.window_location w' = Auth.window_location w)
  ∧ (Auth.truthy (Auth.tokenInParams w) = false →
     Auth.truthy (Auth.localStorage w !! "authToken") = false →
     Auth.status w' = Auth.NO_AUTH
     ∧ Auth.token w' = Auth.token w
     ∧ Auth.localStorage w' = Auth.localStorage w
     ∧ Auth.window_location w' = Auth.window_location w).
Proof.
  intros Hno w'. subst w'. unfold Auth.useEffect. rewrite Hno.
  destruct (Auth.truthy (Auth.tokenInParams w)) eqn:Hurl; simpl.
  - repeat split; try done.
  - destruct (Auth.truthy (Auth.localStorage w !! "authToken")) eqn:Hls; simpl;
      repeat split; try done.
Qed.

Lemma auth_resolution_witness :
  Auth.status
    (Auth.useEffect
       (Auth.page_load
          {| Auth.origin_and_path := "https://choreo.test/";
             Auth.searchParams := [("token", "")] |} ∅)) = Auth.NO_AUTH.
Proof.
  refine (proj1 (proj2 (proj2 (proj2 (auth_resolution
            (Auth.page_load
               {| Auth.origin_and_path := "https://choreo.test/";
                  Auth.searchParams := [("token", "")] |} ∅) _))) _ _)).
  - reflexivity.
  - reflexivity.
  - reflexivity.
Defined.

(** Running the effect again changes nothing, and a token the hook
    already holds is kept whatever the URL and the storage say. *)
Theorem auth_effect_idempotent (w : Auth.World) :
  Auth.useEffect (Auth.useEffect w) = Auth.useEffect w
  ∧ (Auth.truthy (Auth.token w) = true → Auth.useEffect w = w).
Proof.
  split; [|by unfold Auth.useEffect; intros ->].
  unfold Auth.useEffect, Auth.tokenInParams.
  destruct (Auth.truthy (Auth.token w)) eqn:Htok; [by rewrite Htok|].
  destruct (Auth.truthy (Auth.searchParams_get _ _)) eqn:Hurl; simpl;
    [by rewrite Hurl|].
  destruct (Auth.truthy (Auth.localStorage w !! "authToken")) eqn:Hls; simpl.
  - by rewrite Hls.
  - by rewrite Htok, Hurl, Hls.
Qed.



(** ** [components/Header.tsx] *)

(** [handleLoadCSV] hands a file to [loadFromCSV] exactly when one was
    selected, whatever its type: without a file there is one alert and
    nothing else, and a file that is not [text/csv] is alerted about and
    loaded all the same. *)
Theorem header_load_ignores_type (files : option (list Header.File)) :
  (∀ f, Header.loadFromCSV f ∈ Header.handleLoadCSV files
        ↔ Header.first_file files = Some f)
  ∧ (Header.first_file files = None →
     Header.handleLoadCSV files = [Header.alert Header.NoFileSelected])
  ∧ (∀ f, Header.first_file files = Some f →
          Header.handleLoadCSV files
          = if bool_decide (Header.file_type f = "text/csv")
            then [Header.loadFromCSV f]
            else [Header.alert Header.MustBeCsv; Header.loadFromCSV f]).
Proof.
  unfold Header.handleLoadCSV.
  destruct (Header.first_file files) as [file|]; split.
  - intros f. rewrite elem_of_app, list_elem_of_singleton.
    split.
    + intros [Hin|[= ->]]; [|done]. case_bool_decide.
      * by apply list_elem_of_singleton in Hin.
      * by apply elem_of_nil in Hin.
    + intros [= ->]. by right.
  - split; [done|]. intros f [= ->].
    by repeat case_bool_decide.
  - intros f. rewrite list_elem_of_singleton. by split.
  - split; [done|]. by intros f.
Qed.

Module HeaderFacts.
Import Header.

Lemma replaceAll_absent (from to : Ascii.ascii) (s : string) :
  from ≠ to → from ∉ String.list_ascii_of_string (replaceAll from to s).
Proof.
  intros Hne. induction s as [|c s IH]; simpl.
  - apply not_elem_of_nil.
  - apply not_elem_of_cons. split; [|done].
    destruct (Ascii.eqb_spec c from) as [->|Hc]; congruence.
Qed.

Lemma replaceAll_length (from to : Ascii.ascii) (s : string) :
  String.length (replaceAll from to s) = String.length s.
Proof. induction s as [|c s IH]; simpl; [done|]. by rewrite IH. Qed.

Lemma replaceAll_fixed (from to : Ascii.ascii) (s : string) :
  from ∉ String.list_ascii_of_string s → replaceAll from to s = s.
Proof.
  induction s as [|c s IH]; simpl; [done|].
  intros Hnot. apply not_elem_of_cons in Hnot as [Hne Hnot].
  rewrite IH by done. destruct (Ascii.eqb_spec c from); congruence.
Qed.

End HeaderFacts.

(** The name [handleSaveCSV] passes to [saveToCSV] never contains a
    space, is as long as the lower-cased track name, and is that
    lower-cased name itself when it had no space to begin with. *)
Theorem header_save_name_has_no_space
    (toLocaleLowerCase : string → string) (trackName : string) :
  ∃ name,
    Header.handleSaveCSV toLocaleLowerCase trackName = [Header.saveToCSV name]
    ∧ (Header.space ∉ String.list_ascii_of_string name)
    ∧ String.length name = String.length (toLocaleLowerCase trackName)
    ∧ (Header.space ∉ String.list_ascii_of_string (toLocaleLowerCase trackName) →
       name = toLocaleLowerCase trackName).
Proof.
  eexists. split; [done|]. split; [|split].
  - by apply HeaderFacts.replaceAll_absent.
  - apply HeaderFacts.replaceAll_length.
  - apply HeaderFacts.replaceAll_fixed.
Qed.

Lemma header_load_ignores_type_witness :
  Header.handleLoadCSV
    (Some [ {| Header.file_name := "notes.pdf";
               Header.file_type := "application/pdf" |} ])
  = [ Header.alert Header.MustBeCsv;
      Header.loadFromCSV
        {| Header.file_name := "notes.pdf";
           Header.file_type := "application/pdf" |} ].
Proof.
  exact (proj2 (proj2 (header_load_ignores_type
           (Some [ {| Header.file_name := "notes.pdf";
                      Header.file_type := "application/pdf" |} ])))
           {| Header.file_name := "notes.pdf";
              Header.file_type := "application/pdf" |} eq_refl).
Defined.

Lemma auth_effect_idempotent_witness :
  Auth.useEffect
    {| Auth.token := Some "abc"; Auth.status := Auth.GOOD;
       Auth.location :=
         {| Auth.origin_and_path := "/"; Auth.searchParams := [("token", "new")] |};
       Auth.window_location :=
         {| Auth.origin_and_path := "/"; Auth.searchParams := [("token", "new")] |};
       Auth.localStorage := ∅ |}
  = {| Auth.token := Some "abc"; Auth.status := Auth.GOOD;
       Auth.location :=
         {| Auth.origin_and_path := "/"; Auth.searchParams := [("token", "new")] |};
       Auth.window_location :=
         {| Auth.origin_and_path := "/"; Auth.searchParams := [("token", "new")] |};
       Auth.localStorage := ∅ |}.
Proof.
  exact (proj2 (auth_effect_idempotent
           {| Auth.token := Some "abc"; Auth.status := Auth.GOOD;
              Auth.location :=
                {| Auth.origin_and_path := "/";
                   Auth.searchParams := [("token", "new")] |};
              Auth.window_location :=
                {| Auth.origin_and_path := "/";
                   Auth.searchParams := [("token", "new")] |};
              Auth.localStorage := ∅ |}) eq_refl).
Defined.

(** ** Subscriber arrays *)

Lemma findIndex_from_first (callback : Callback) (l1 l2 : list Callback) (i : Z) :
  callback ∉ l1 →
  findIndex_from i callback (l1 ++ callback :: l2)
  = (i + Z.of_nat (length l1))%Z.
Proof.
  revert i. induction l1 as [|cb l1 IH]; intros i Hnot; simpl.
  - rewrite Nat.eqb_refl. lia.
  - apply not_elem_of_cons in Hnot as [Hne Hnot].
    destruct (Nat.eqb_spec cb callback) as [->|_]; [done|].
    rewrite IH by done. lia.
Qed.

(** [findIndex] and [splice] together take out the first occurrence and
    nothing else. *)
Lemma remove_callback_first (callback : Callback) (l1 l2 : list Callback) :
  callback ∉ l1 →
  remove_callback callback (l1 ++ callback :: l2) = l1 ++ l2.
Proof.
  intros Hnot. unfold remove_callback, findIndex.
  rewrite (findIndex_from_first _ _ _ _ Hnot).
  rewrite length_app. simpl.
  replace (length l1 + S (length l2) =? 0)%nat with false
    by (symmetry; apply Nat.eqb_neq; lia).
  replace (0 + Z.of_nat (length l1) >? -1)%Z with true
    by (symmetry; apply Z.gtb_lt; lia).
  unfold splice1. rewrite Z.add_0_l, Nat2Z.id. apply delete_middle.
Qed.

Module RegistryFacts.
Import Player.

Lemma onTickCallbacks_of_update (h : nat)
    (f : list Callback → list Callback) (w : World) :
  onTickCallbacks_of h
    (update_player h (λ p, with_onTickCallbacks (f (onTickCallbacks p)) p) w)
  = match player_of h w with
    | Some p => f (onTickCallbacks p)
    | None => []
    end.
Proof.
  unfold onTickCallbacks_of, player_of, update_player. simpl.
  rewrite list_lookup_alter_eq. by destruct (players w !! h).
Qed.

Lemma onTickCallbacks_of_addOnTick (h : nat) (cb : Callback) (w : World) :
  h < length (players w) →
  onTickCallbacks_of h (addOnTick h cb w) = onTickCallbacks_of h w ++ [cb].
Proof.
  intros Hh. destruct (lookup_lt_is_Some_2 _ _ Hh) as [p Hp].
  unfold addOnTick.
  change (onTickCallbacks_of h
            (update_player h
               (λ p, with_onTickCallbacks ((λ l, l ++ [cb]) (onTickCallbacks p)) p)
               (await (KAddOnTick h cb) (log (GetCurrentState h) w)))
          = onTickCallbacks_of h w ++ [cb]).
  rewrite onTickCallbacks_of_update.
  unfold onTickCallbacks_of, player_of. simpl. by rewrite Hp.
Qed.

Lemma onTickCallbacks_of_removeOnTick (h : nat) (cb : Callback) (w : World) :
  onTickCallbacks_of h (removeOnTick h cb w)
  = remove_callback cb (onTickCallbacks_of h w).
Proof.
  unfold removeOnTick. rewrite onTickCallbacks_of_update.
  unfold onTickCallbacks_of. by destruct (player_of h w).
Qed.

Lemma players_length_addOnTick h cb w :
  length (players (addOnTick h cb w)) = length (players w).
Proof. unfold addOnTick, update_player. simpl. apply length_alter. Qed.

End RegistryFacts.

(** Unsubscribing takes out the first registration of the callback and
    leaves every other entry, in order; this holds for the tick registry
    of [wrapSpotifyPlayer] and for both module-level arrays of the
    earlier source. *)
Theorem registry_remove_first_occurrence
    (callback : Callback) (l1 l2 : list Callback) :
  callback ∉ l1 →
  (∀ (w : Player.World) h,
     Player.onTickCallbacks_of h w = l1 ++ callback :: l2 →
     Player.onTickCallbacks_of h (Player.removeOnTick h callback w) = l1 ++ l2)
  ∧ (∀ lw : Legacy.World,
       Legacy.onTickCallbacks lw = l1 ++ callback :: l2 →
       Legacy.onTickCallbacks (Legacy.removeOnTick callback lw) = l1 ++ l2)
  ∧ (∀ lw : Legacy.World,
       Legacy.playerStateCallbacks lw = l1 ++ callback :: l2 →
       Legacy.playerStateCallbacks (Legacy.removeOnStateChange callback lw)
       = l1 ++ l2).
Proof.
  intros Hnot. split; [|split].
  - intros w h Hreg. rewrite RegistryFacts.onTickCallbacks_of_removeOnTick, Hreg.
    by apply remove_callback_first.
  - intros lw Hreg. unfold Legacy.removeOnTick. simpl. rewrite Hreg.
    by apply remove_callback_first.
  - intros lw Hreg. unfold Legacy.removeOnStateChange. simpl. rewrite Hreg.
    by apply remove_callback_first.
Qed.

Lemma registry_remove_first_occurrence_witness :
  Player.onTickCallbacks_of 0
    (Player.removeOnTick 0 9
       (Player.run PlayerSpec.fake_mounted
          [Player.AddOnTick 0 7; Player.AddOnTick 0 9; Player.AddOnTick 0 8;
           Player.AddOnTick 0 9]))
  = [7] ++ [8; 9].
Proof.
  assert (Hnot : 9 ∉ [7]).
  { intros Hin. apply list_elem_of_singleton in Hin. discriminate Hin. }
  refine (proj1 (registry_remove_first_occurrence 9 [7] [8; 9] Hnot) _ 0 _).
  by vm_compute.
Defined.

(** Subscribing a callback that was not registered and unsubscribing it
    again leaves every player as it was; subscribing it twice takes two
    removals, one removal leaves one registration. *)
Theorem registry_subscribe_unsubscribe
    (w : Player.World) (h : nat) (cb : Callback) :
  h < length (Player.players w) →
  cb ∉ Player.onTickCallbacks_of h w →
  Player.players (Player.removeOnTick h cb (Player.addOnTick h cb w))
  = Player.players w
  ∧ Player.onTickCallbacks_of h
      (Player.removeOnTick h cb
         (Player.addOnTick h cb (Player.addOnTick h cb w)))
    = Player.onTickCallbacks_of h w ++ [cb].
Proof.
  intros Hh Hnot. split.
  - unfold Player.removeOnTick, Player.addOnTick, Player.update_player. simpl.
    rewrite list_alter_alter_eq. apply alter_fixed. intros p Hp. simpl.
    unfold Player.onTickCallbacks_of, Player.player_of in Hnot.
    rewrite Hp in Hnot. simpl in Hnot.
    rewrite (remove_callback_first cb (Player.onTickCallbacks p) []) by done.
    rewrite app_nil_r. by destruct p.
  - rewrite RegistryFacts.onTickCallbacks_of_removeOnTick.
    rewrite !RegistryFacts.onTickCallbacks_of_addOnTick;
      rewrite ?RegistryFacts.players_length_addOnTick; try done.
    rewrite <- app_assoc. simpl.
    by rewrite (remove_callback_first cb _ [cb]).
Qed.

Lemma registry_subscribe_unsubscribe_witness :
  Player.players
    (Player.removeOnTick 0 7 (Player.addOnTick 0 7 PlayerSpec.fake_mounted))
  = Player.players PlayerSpec.fake_mounted.
Proof.
  refine (proj1 (registry_subscribe_unsubscribe PlayerSpec.fake_mounted 0 7 _ _)).
  - vm_compute. lia.
  - vm_compute. apply not_elem_of_nil.
Defined.

(** A tick without a position asks the player for its state once; when
    the answer is a state every subscriber is called once with its
    position, and when the answer is null nobody is called. *)
Theorem tick_query_delivers_position
    (w : Player.World) (h : nat) (state : option PlaybackState) :
  let w1 := Player.tick h None w in
  Player.trace w1 = Player.trace w ++ [Player.GetCurrentState h]
  ∧ Player.trace (Player.settle (length (Player.pending w)) (RState state) w1)
    = Player.trace w1
      ++ match state with
         | Some state =>
             (λ cb, Player.OnTick cb (position state))
               <$> Player.onTickCallbacks_of h w
         | None => []
         end.
Proof.
  intros w1. subst w1. split; [done|].
  assert (Hk : Player.pending (Player.tick h None w)
               !! length (Player.pending w) = Some (Player.KTick h))
    by by apply list_lookup_middle.
  unfold Player.settle. rewrite Hk. unfold Player.tick_resume.
  destruct state as [state|]; cbn [fmap option_fmap option_map].
  - by rewrite PlayerFacts.call_onTickCallbacks_eq.
  - simpl. by rewrite app_nil_r.
Qed.

(** ** The hook: errors, exceptions and what the effect leaves alone *)

Module HookLaws.
Import Player PlayerSpec PlayerLaws.

Lemma filter_event_kinds h w ev l :
  listeners_named w →
  l ∈ (filter (λ el : string * Listener, el.1 = event_name ev)
         (listeners_of h w)).*2 →
  listener_event l = event_name ev.
Proof.
  intros Hw Hl. apply list_elem_of_fmap in Hl as ([event l'] & -> & Hel).
  apply list_elem_of_filter in Hel as [Hname Hel].
  pose proof (HookFacts.named_listeners_of _ _ _ Hw Hel) as Hn.
  unfold well_named in Hn. simpl in *. by rewrite <- Hn.
Qed.

(** The listener the hook registers for each error event. *)
Lemma error_listener_registered h w ev st :
  hook_listening h w → error_status ev = Some st →
  ∃ l, l ∈ (filter (λ el : string * Listener, el.1 = event_name ev)
              (listeners_of h w)).*2
       ∧ listener_event l = event_name ev.
Proof.
  intros Hl Hst.
  assert (Hin : ∃ l, (event_name ev, l) ∈ hook_listeners
                     ∧ listener_event l = event_name ev).
  { unfold hook_listeners. destruct ev; try discriminate Hst; simpl.
    - exists onPlaybackError. rewrite !elem_of_cons. tauto.
    - exists onInitializationError. rewrite !elem_of_cons. tauto.
    - exists onAuthenticationError. rewrite !elem_of_cons. tauto.
    - exists onAccountError. rewrite !elem_of_cons. tauto. }
  destruct Hin as (l & Hin & Hev). exists l. split; [|done].
  apply (list_elem_of_fmap_2' snd _ (event_name ev, l)); [|done].
  apply list_elem_of_filter. split; [done|]. by apply Hl.
Qed.

(** One listener of an error event: the status is set, the playback state
    and the player atom are not touched. *)
Lemma run_error_listener h ev st w l :
  error_status ev = Some st → listener_event l = event_name ev →
  playerStatusAtom (run_listener h ev w l) = st
  ∧ playbackStateAtom (run_listener h ev w l) = playbackStateAtom w
  ∧ spotifyPlayerAtom (run_listener h ev w l) = spotifyPlayerAtom w
  ∧ window_spotifyPlayer (run_listener h ev w l) = window_spotifyPlayer w
  ∧ ∃ t, trace (run_listener h ev w l) = trace w ++ t
         ∧ ∀ m, ev = playback_error m → t = [ConsoleLogPlaybackError m].
Proof.
  intros Hst Hev.
  destruct ev; try discriminate Hst; destruct l; try discriminate Hev;
    injection Hst as <-; simpl; repeat split; try done.
  - eexists. split; [done|]. by intros m [= ->].
  - exists []. by rewrite app_nil_r.
  - exists []. by rewrite app_nil_r.
  - exists []. by rewrite app_nil_r.
Qed.

Lemma listeners_of_players h w w' :
  players w' = players w → listeners_of h w' = listeners_of h w.
Proof. unfold listeners_of, player_of. by intros ->. Qed.

Lemma cache_miss_false token w :
  cache_miss token w = false →
  ∃ p, tokenAndPromise w = Some (token, Some p).
Proof.
  unfold cache_miss. destruct (tokenAndPromise w) as [[token' [p|]]|]; try done.
  - intros Hm. apply orb_false_iff in Hm as [Ht _].
    apply bool_decide_eq_false in Ht. exists p.
    destruct (decide (token = token')) as [->|Hne]; [done|]. by destruct Ht.
  - intros Hm. apply orb_false_iff in Hm as [_ Hp].
    by apply bool_decide_eq_false in Hp.
Qed.

(** The state of the effect before it attaches its callback. *)
Lemma effect_body_cases token w :
  ∃ w1 p,
    effect_body token w = promise_then p w1
    ∧ tokenAndPromise w1 = Some (token, Some p)
    ∧ uncaught w1 = uncaught w
    ∧ atoms w1 = atoms w
    ∧ window_spotifyPlayer w1 = window_spotifyPlayer w.
Proof.
  unfold effect_body.
  destruct (window_player_with token w) as [h0|] eqn:Hwin.
  { eexists _, _. split; [reflexivity|]. simpl. done. }
  destruct (cache_miss token w) eqn:Hmiss.
  - set (w2 := match window_spotifyPlayer w with Some h => _ | None => _ end).
    assert (Hw2 : uncaught w2 = uncaught w ∧ atoms w2 = atoms w
                  ∧ window_spotifyPlayer w2 = window_spotifyPlayer w)
      by (subst w2; destruct (window_spotifyPlayer w) eqn:E; simpl;
          rewrite ?E; done).
    destruct Hw2 as (Hu & Ha & Hwd).
    case_bool_decide.
    + eexists _, _. split; [reflexivity|]. simpl. done.
    + unfold getSpotifyPlayer.
      destruct (getElementById SPOTIFY_SCRIPT_ID (document w2));
        eexists _, _; (split; [reflexivity|]); simpl; done.
  - destruct (cache_miss_false _ _ Hmiss) as [p Hc]. rewrite Hc.
    by exists w, p.
Qed.

Lemma atoms_promise_then p w : atoms (promise_then p w) = atoms w.
Proof.
  unfold promise_then. destruct (promises w !! p) as [st|]; [|done].
  by destruct (settled st).
Qed.

Lemma window_promise_then p w :
  window_spotifyPlayer (promise_then p w) = window_spotifyPlayer w.
Proof.
  unfold promise_then. destruct (promises w !! p) as [st|]; [|done].
  by destruct (settled st).
Qed.

Lemma atoms_window_foldl {B} (f : World → B → World) (l : list B) (w : World) :
  (∀ w x, atoms (f w x) = atoms w
          ∧ window_spotifyPlayer (f w x) = window_spotifyPlayer w) →
  atoms (foldl f w l) = atoms w
  ∧ window_spotifyPlayer (foldl f w l) = window_spotifyPlayer w.
Proof.
  intros Hf.
  apply (foldl_invariant
           (λ w', atoms w' = atoms w
                  ∧ window_spotifyPlayer w' = window_spotifyPlayer w)); [done|].
  intros w' x [Ha Hw]. destruct (Hf w' x) as [Ha' Hw']. by rewrite Ha', Hw'.
Qed.

Lemma atoms_window_resolve p wp w :
  atoms (resolve p wp w) = atoms w
  ∧ window_spotifyPlayer (resolve p wp w) = window_spotifyPlayer w.
Proof.
  unfold resolve. destruct (promises w !! p) as [st|]; [|done].
  destruct (settled st); [done|].
  by destruct (atoms_window_foldl (λ w (_ : ()), thenCallback wp w) (waiting st)
                 (set_promises
                    (<[p:={| settled := Some wp; waiting := [] |}]> (promises w))
                    w)) as [-> ->].
Qed.

Lemma atoms_window_sdkReady w :
  atoms (sdkReady w) = atoms w
  ∧ window_spotifyPlayer (sdkReady w) = window_spotifyPlayer w.
Proof.
  unfold sdkReady.
  destruct (onSpotifyWebPlaybackSDKReady w) as [[token p]|]; [|done].
  simpl. by destruct (atoms_window_resolve p (length (players w))
                        (addListener (length (players w)) "player_state_changed"
                           stateChangeCallback
                           (set_players
                              (players w
                               ++ [{| authToken := token; fake := false;
                                      connected := false; listeners := [];
                                      playbackCallbacks := [];
                                      onTickCallbacks := [] |}])
                              (log (NewSpotifyPlayer (length (players w)) token) w))))
    as [-> ->].
Qed.

Lemma atoms_window_cleanup w :
  atoms (cleanup w) = atoms w
  ∧ window_spotifyPlayer (cleanup w) = window_spotifyPlayer w.
Proof.
  unfold cleanup. apply atoms_window_foldl. intros w' event.
  destruct (window_spotifyPlayer w') eqn:E; simpl; by rewrite ?E.
Qed.

Lemma uncaught_foldl {B} (f : World → B → World) (l : list B) (w : World) :
  (∀ w x, uncaught (f w x) = uncaught w) →
  uncaught (foldl f w l) = uncaught w.
Proof.
  intros Hf. apply (foldl_invariant (λ w', uncaught w' = uncaught w)); [done|].
  intros w' x Hw'. by rewrite Hf.
Qed.

End HookLaws.

Module LegacyHookLaws.
Import Legacy.

Lemma legacy_cache_miss_false token w :
  cache_miss token w = false →
  ∃ p, tokenAndPromise w = Some (token, Some p).
Proof.
  unfold cache_miss. destruct (tokenAndPromise w) as [[token' [p|]]|]; try done.
  - intros Hm. apply orb_false_iff in Hm as [Ht _].
    apply bool_decide_eq_false in Ht. exists p.
    destruct (decide (token = token')) as [->|Hne]; [done|]. by destruct Ht.
  - intros Hm. apply orb_false_iff in Hm as [_ Hp].
    by apply bool_decide_eq_false in Hp.
Qed.

End LegacyHookLaws.

(** Each error event sets its own status and nothing else that is
    published: for a player the hook listens to, [playback_error] gives
    PLAYBACK_ERROR, [initialization_error] INIT_ERROR,
    [authentication_error] AUTH_ERROR and [account_error] ACCT_ERROR,
    while the playback state, the player atom, [window.spotifyPlayer] and
    every player stay as they were. *)
Theorem error_events_set_status
    (steps : list Player.Step) (h : nat) (ev : DeviceEvent)
    (st : SpotifyPlayerStatus) :
  let w := Player.run Player.init steps in
  PlayerSpec.hook_listening h w →
  PlayerLaws.error_status ev = Some st →
  let w' := Player.emit h ev w in
  Player.playerStatusAtom w' = st
  ∧ Player.playbackStateAtom w' = Player.playbackStateAtom w
  ∧ Player.spotifyPlayerAtom w' = Player.spotifyPlayerAtom w
  ∧ Player.window_spotifyPlayer w' = Player.window_spotifyPlayer w
  ∧ Player.players w' = Player.players w.
Proof.
  intros w Hl Hst w'. subst w'.
  pose proof (HookFacts.named_run steps) as Hw. fold w in Hw.
  split; [|rewrite HookFacts.players_emit; repeat split; try done]; unfold Player.emit.
  - apply (foldl_established (λ _, True)
             (λ w', Player.playerStatusAtom w' = st)); [done| | |done].
    + intros w' l Hin _ _.
      by apply (HookLaws.run_error_listener h ev st w' l Hst
                  (HookLaws.filter_event_kinds _ _ _ _ Hw Hin)).
    + destruct (HookLaws.error_listener_registered h w ev st Hl Hst)
        as (l & Hin & Hev).
      exists l. split; [done|]. intros w' _.
      by apply (HookLaws.run_error_listener h ev st w' l Hst Hev).
  - apply (foldl_invariant_elem
             (λ w', Player.playbackStateAtom w' = Player.playbackStateAtom w));
      [done|].
    intros w' l Hin Hw'.
    destruct (HookLaws.run_error_listener h ev st w' l Hst
                (HookLaws.filter_event_kinds _ _ _ _ Hw Hin)) as (_ & -> & _).
    done.
  - apply (foldl_invariant_elem
             (λ w', Player.spotifyPlayerAtom w' = Player.spotifyPlayerAtom w));
      [done|].
    intros w' l Hin Hw'.
    destruct (HookLaws.run_error_listener h ev st w' l Hst
                (HookLaws.filter_event_kinds _ _ _ _ Hw Hin)) as (_ & _ & -> & _).
    done.
  - apply (foldl_invariant_elem
             (λ w', Player.window_spotifyPlayer w' = Player.window_spotifyPlayer w));
      [done|].
    intros w' l Hin Hw'.
    destruct (HookLaws.run_error_listener h ev st w' l Hst
                (HookLaws.filter_event_kinds _ _ _ _ Hw Hin))
      as (_ & _ & _ & -> & _).
    done.
Qed.

Lemma error_events_set_status_witness :
  Player.playerStatusAtom
    (Player.emit 0 (account_error "premium required")
       (Player.run Player.init PlayerSpec.abc_steps)) = ACCT_ERROR.
Proof.
  assert (Hl : PlayerSpec.hook_listening 0
                 (Player.run Player.init PlayerSpec.abc_steps)).
  { unfold PlayerSpec.hook_listening. apply (bool_decide_unpack _).
    by vm_compute. }
  exact (proj1 (error_events_set_status PlayerSpec.abc_steps 0
                  (account_error "premium required") ACCT_ERROR Hl eq_refl)).
Defined.

(** No status is final: whatever event the device emitted last, a
    state-changed event that carries a state brings the status back to
    READY and publishes that state. *)
Theorem status_recovers_on_next_state
    (steps : list Player.Step) (h : nat) (ev : DeviceEvent)
    (state : PlaybackState) :
  let w := Player.run Player.init steps in
  PlayerSpec.hook_listening h w →
  let w' := Player.emit h (player_state_changed (Some state))
              (Player.emit h ev w) in
  Player.playerStatusAtom w' = READY
  ∧ Player.playbackStateAtom w' = Some state.
Proof.
  intros w Hl w'. subst w'.
  pose proof (HookFacts.named_run steps) as Hw. fold w in Hw.
  assert (Hw' : PlayerSpec.listeners_named (Player.emit h ev w))
    by (eapply HookFacts.named_players; [apply HookFacts.players_emit|done]).
  assert (Hl' : PlayerSpec.hook_listening h (Player.emit h ev w)).
  { unfold PlayerSpec.hook_listening.
    by rewrite (HookLaws.listeners_of_players h w _ (HookFacts.players_emit _ _ _)). }
  destruct (HookFacts.emit_state_changed h (Some state) _ Hw' Hl')
    as (Hs & Hst & _).
  by split.
Qed.

Lemma status_recovers_on_next_state_witness :
  Player.playerStatusAtom
    (Player.emit 0 (player_state_changed (Some PlayerSpec.playing_1000))
       (Player.emit 0 (authentication_error "expired")
          (Player.run Player.init PlayerSpec.abc_steps))) = READY.
Proof.
  assert (Hl : PlayerSpec.hook_listening 0
                 (Player.run Player.init PlayerSpec.abc_steps)).
  { unfold PlayerSpec.hook_listening. apply (bool_decide_unpack _).
    by vm_compute. }
  exact (proj1 (status_recovers_on_next_state PlayerSpec.abc_steps 0
                  (authentication_error "expired") PlayerSpec.playing_1000 Hl)).
Defined.

(** The effect never throws: [tokenAndPromise] is always defined by the
    time its promise is read.  With a null or empty token the effect does
    nothing; with any other token it leaves [tokenAndPromise] holding that
    token and a promise.  The earlier effect has no guard and does the
    same for every value of the token, [undefined] included. *)
Theorem effect_never_throws (w : Player.World) (token : option Token) :
  Player.uncaught (Player.useEffect token w) = Player.uncaught w
  ∧ (Auth.truthy token = false → Player.useEffect token w = w)
  ∧ (∀ t, token = Some t → t ≠ "" →
       ∃ p, Player.tokenAndPromise (Player.useEffect token w)
            = Some (t, Some p))
  ∧ (∀ (lw : Legacy.World) (ltoken : Legacy.TokenValue),
       Legacy.uncaught (Legacy.useEffect ltoken lw) = Legacy.uncaught lw
       ∧ ∃ p, Legacy.tokenAndPromise (Legacy.useEffect ltoken lw)
              = Some (ltoken, Some p)).
Proof.
  split; [|split; [|split]].
  - unfold Player.useEffect. destruct token as [t|]; [|done].
    case_bool_decide; [done|].
    destruct (HookLaws.effect_body_cases t w) as (w1 & p & -> & _ & Hu & _).
    by rewrite ObtainFacts.uncaught_promise_then.
  - unfold Player.useEffect. destruct token as [t|]; [|done]. simpl.
    destruct (String.eqb_spec t "") as [->|]; [done|done].
  - intros t -> Ht. unfold Player.useEffect.
    rewrite bool_decide_eq_false_2 by done.
    destruct (HookLaws.effect_body_cases t w) as (w1 & p & -> & Hc & _).
    exists p. by rewrite ObtainFacts.tokenAndPromise_promise_then.
  - intros lw ltoken. unfold Legacy.useEffect.
    destruct (Legacy.cache_miss ltoken lw) eqn:Hmiss.
    + destruct (Legacy.window_player lw); simpl;
        unfold Legacy.promise_then; simpl;
        rewrite (list_lookup_middle _ [] _ (length (Legacy.promises lw))) by done;
        simpl; split; try done; by eexists.
    + destruct (LegacyHookLaws.legacy_cache_miss_false _ _ Hmiss) as [p Hc].
      rewrite Hc.
      rewrite LegacyObtainFacts.legacy_uncaught_promise_then,
        LegacyObtainFacts.legacy_tokenAndPromise_promise_then.
      split; [done|]. by exists p.
Qed.

Lemma effect_never_throws_witness :
  ∃ p, Player.tokenAndPromise (Player.useEffect (Some "abc") Player.init)
       = Some ("abc", Some p).
Proof.
  refine (proj1 (proj2 (proj2 (effect_never_throws Player.init (Some "abc"))))
            "abc" eq_refl _).
  discriminate.
Defined.

(** Only answers of the SDK and events of the device change what the
    hook publishes: running the effect, its cleanup, the SDK-ready signal,
    a disconnect or any method of the wrapper leaves the status, the
    playback state, the player atom and [window.spotifyPlayer] as they
    were.  In particular a change of token does not take the status back
    to LOADING. *)
Theorem published_state_changes_only_on_answers
    (w : Player.World) (s : Player.Step) :
  PlayerLaws.from_sdk s = false →
  PlayerLaws.atoms (Player.step w s) = PlayerLaws.atoms w
  ∧ Player.window_spotifyPlayer (Player.step w s)
    = Player.window_spotifyPlayer w.
Proof.
  intros Hs. destruct s; try discriminate Hs; simpl; try done.
  - unfold Player.useEffect. destruct token as [t|]; [|done].
    case_bool_decide; [done|].
    destruct (HookLaws.effect_body_cases t w)
      as (w1 & p & -> & _ & _ & Ha & Hwd).
    by rewrite HookLaws.atoms_promise_then, HookLaws.window_promise_then.
  - apply HookLaws.atoms_window_cleanup.
  - apply HookLaws.atoms_window_sdkReady.
Qed.

Lemma published_state_changes_only_on_answers_witness :
  PlayerLaws.atoms
    (Player.step PlayerSpec.connected_abc (Player.Effect (Some "def")))
  = PlayerLaws.atoms PlayerSpec.connected_abc.
Proof.
  exact (proj1 (published_state_changes_only_on_answers
                  PlayerSpec.connected_abc (Player.Effect (Some "def")) eq_refl)).
Defined.

(** ** Nothing the hook holds dangles *)

Module WellFormedFacts.
Import Player PlayerSpec PlayerLaws.

(** Well-formedness looks at six fields and at the number of players. *)
Lemma wf_frame (w w' : World) :
  window_spotifyPlayer w' = window_spotifyPlayer w →
  spotifyPlayerAtom w' = spotifyPlayerAtom w →
  tokenAndPromise w' = tokenAndPromise w →
  onSpotifyWebPlaybackSDKReady w' = onSpotifyWebPlaybackSDKReady w →
  promises w' = promises w →
  pending w' = pending w →
  length (players w') = length (players w) →
  well_formed w → well_formed w'.
Proof.
  intros Hwin Hatom Hcache Hready Hprom Hpend Hlen [? ? ? ? ? ?].
  constructor; rewrite ?Hwin, ?Hatom, ?Hcache, ?Hready, ?Hprom, ?Hpend, ?Hlen;
    done.
Qed.

Lemma wf_log c w : well_formed w → well_formed (log c w).
Proof. by apply wf_frame. Qed.

Lemma wf_update_player h f w :
  well_formed w → well_formed (update_player h f w).
Proof. apply wf_frame; try done. apply length_alter. Qed.

Lemma wf_addListener h event l w :
  well_formed w → well_formed (addListener h event l w).
Proof. intros Hw. unfold addListener. by apply wf_log, wf_update_player. Qed.

Lemma wf_removeListener h event w :
  well_formed w → well_formed (removeListener h event w).
Proof. intros Hw. unfold removeListener. by apply wf_log, wf_update_player. Qed.

Lemma wf_disconnect h w : well_formed w → well_formed (disconnect h w).
Proof. intros Hw. unfold disconnect. by apply wf_log, wf_update_player. Qed.

Lemma wf_setStatus st w : well_formed w → well_formed (setStatus st w).
Proof. by apply wf_frame. Qed.

Lemma wf_setState st w : well_formed w → well_formed (setState st w).
Proof. by apply wf_frame. Qed.

Lemma wf_await k w :
  (∀ h, hook_cont_player k = Some h → h < length (players w)) →
  well_formed w → well_formed (await k w).
Proof.
  intros Hk [? ? ? ? ? ?]. constructor; try done. simpl.
  apply Forall_app_2; [done|]. by repeat constructor.
Qed.

Lemma wf_setPlayer_window w :
  well_formed w → well_formed (setPlayer (window_spotifyPlayer w) w).
Proof. intros [? ? ? ? ? ?]. by constructor. Qed.

Lemma wf_set_window wp w :
  wp < length (players w) →
  well_formed w → well_formed (set_window_spotifyPlayer (Some wp) w).
Proof. intros Hwp [? ? ? ? ? ?]. constructor; try done. by intros h [= <-]. Qed.

(** A newly wrapped player only widens the range of valid handles. *)
Lemma wf_wrapSpotifyPlayer is_fake token w :
  well_formed w →
  well_formed (wrapSpotifyPlayer is_fake token w).2
  ∧ (wrapSpotifyPlayer is_fake token w).1 = length (players w)
  ∧ length (players (wrapSpotifyPlayer is_fake token w).2)
    = S (length (players w)).
Proof.
  intros [Hwin Hatom Hcache Hready Hprom Hpend].
  unfold wrapSpotifyPlayer. simpl. split; [|split; [done|]].
  - apply wf_addListener. constructor; simpl; try done.
    + intros h Hh. rewrite length_app. specialize (Hwin h Hh). lia.
    + intros h Hh. rewrite length_app. specialize (Hatom h Hh). lia.
    + eapply Forall_impl; [exact Hprom|]. intros st Hst h Hh.
      rewrite length_app. specialize (Hst h Hh). lia.
    + eapply Forall_impl; [exact Hpend|]. intros k Hk h Hh.
      rewrite length_app. specialize (Hk h Hh). lia.
  - rewrite length_alter, length_app. simpl. lia.
Qed.

Lemma wf_new_promise st w :
  (∀ h, settled st = Some h → h < length (players w)) →
  well_formed w →
  well_formed (new_promise st w).2
  ∧ (new_promise st w).1 = length (promises w)
  ∧ length (promises (new_promise st w).2) = S (length (promises w)).
Proof.
  intros Hst [Hwin Hatom Hcache Hready Hprom Hpend]. unfold new_promise. simpl.
  split; [|split; [done|rewrite length_app; simpl; lia]].
  constructor; simpl; try done.
  - intros t p Hc. rewrite length_app. specialize (Hcache t p Hc). lia.
  - intros t p Hr. rewrite length_app. specialize (Hready t p Hr). lia.
  - apply Forall_app_2; [done|]. by repeat constructor.
Qed.

Lemma wf_set_tokenAndPromise t p w :
  p < length (promises w) →
  well_formed w → well_formed (set_tokenAndPromise (Some (t, Some p)) w).
Proof. intros Hp [? ? ? ? ? ?]. constructor; try done. by intros t' p' [= <- <-]. Qed.

Lemma wf_set_ready t p w :
  p < length (promises w) →
  well_formed w →
  well_formed (set_onSpotifyWebPlaybackSDKReady (Some (t, p)) w).
Proof. intros Hp [? ? ? ? ? ?]. constructor; try done. by intros t' p' [= <- <-]. Qed.

Lemma wf_insert_promise p st w :
  (∀ h, settled st = Some h → h < length (players w)) →
  well_formed w → well_formed (set_promises (<[p:=st]> (promises w)) w).
Proof.
  intros Hst [? ? ? ? ? ?]. constructor; simpl; try done.
  - intros t q Hc. rewrite length_insert. eauto.
  - intros t q Hr. rewrite length_insert. eauto.
  - by apply Forall_insert.
Qed.

Lemma wf_delete_pending i w :
  well_formed w → well_formed (set_pending (delete i (pending w)) w).
Proof.
  intros [? ? ? ? ? ?]. constructor; simpl; try done.
  by apply Forall_delete.
Qed.

Lemma wf_thenCallback wp w :
  wp < length (players w) → well_formed w → well_formed (thenCallback wp w).
Proof.
  intros Hwp Hw. unfold thenCallback. apply wf_await; [|by apply wf_log].
  by intros h [= <-].
Qed.

Lemma wf_settled_valid p st h w :
  well_formed w → promises w !! p = Some st → settled st = Some h →
  h < length (players w).
Proof.
  intros Hw Hp Hs.
  by apply (proj1 (Forall_lookup _ _) (wf_promises _ Hw) p st Hp).
Qed.

Lemma wf_promise_then p w : well_formed w → well_formed (promise_then p w).
Proof.
  intros Hw. unfold promise_then.
  destruct (promises w !! p) as [st|] eqn:Hp; [|done].
  destruct (settled st) as [wp|] eqn:Hs.
  - apply wf_thenCallback; [|done]. by eapply wf_settled_valid.
  - by apply wf_insert_promise.
Qed.

Lemma wf_resolve p wp w :
  wp < length (players w) → well_formed w → well_formed (resolve p wp w).
Proof.
  intros Hwp Hw. unfold resolve.
  destruct (promises w !! p) as [st|]; [|done].
  destruct (settled st); [done|].
  apply (foldl_invariant
           (λ w', well_formed w' ∧ length (players w') = length (players w))).
  - split; [|done]. apply wf_insert_promise; [|done]. by intros h [= <-].
  - intros w' _ [Hw' Hlen]. split; [|done].
    apply wf_thenCallback; [|done]. by rewrite Hlen.
Qed.

Lemma wf_getSpotifyPlayer token w :
  well_formed w →
  well_formed (getSpotifyPlayer token w).2
  ∧ (getSpotifyPlayer token w).1 < length (promises (getSpotifyPlayer token w).2).
Proof.
  intros Hw. unfold getSpotifyPlayer.
  set (w1 := match getElementById _ _ with Some _ => _ | None => _ end).
  assert (Hw1 : well_formed w1).
  { subst w1. destruct (getElementById _ _); [done|]. by apply (wf_frame w). }
  destruct (wf_new_promise {| settled := None; waiting := [] |} w1)
    as (Hwf & Hid & Hlen); [done|done|].
  destruct (new_promise _ w1) as [p w2]. simpl in *. subst p.
  split; [|lia]. apply wf_set_ready; [lia|done].
Qed.

Lemma wf_effect_body token w : well_formed w → well_formed (effect_body token w).
Proof.
  intros Hw. unfold effect_body.
  set (w1 := if window_player_with token w is Some wp then _ else _).
  assert (Hw1 : well_formed w1).
  { subst w1. destruct (window_player_with token w) as [wp|] eqn:Hwin.
    - assert (Hwp : wp < length (players w)).
      { unfold window_player_with in Hwin.
        destruct (window_spotifyPlayer w) as [h|] eqn:Hh; [|done].
        destruct (player_of h w); [|done]. case_bool_decide; [|done].
        injection Hwin as <-. by apply (wf_window _ Hw). }
      destruct (wf_new_promise {| settled := Some wp; waiting := [] |} w)
        as (Hwf & Hid & Hlen); [by intros h [= <-]|done|].
      unfold Promise_resolve. destruct (new_promise _ w) as [p w2].
      simpl in *. subst p. apply wf_set_tokenAndPromise; [lia|done].
    - destruct (cache_miss token w); [|done].
      set (w2 := match window_spotifyPlayer w with Some h => _ | None => _ end).
      assert (Hw2 : well_formed w2).
      { subst w2. destruct (window_spotifyPlayer w); [|done].
        by apply wf_disconnect. }
      case_bool_decide.
      + destruct (wf_wrapSpotifyPlayer true token
                    (log (GetFakePlayer (length (players w2))) w2))
          as (Hwf & Hid & Hlen); [by apply wf_log|].
        destruct (wrapSpotifyPlayer true token _) as [wp w3].
        simpl in Hwf, Hid, Hlen.
        destruct (wf_new_promise {| settled := Some wp; waiting := [] |} w3)
          as (Hwf' & _ & _); [intros h [= <-]; lia|done|].
        simpl. apply wf_set_tokenAndPromise; [|exact Hwf'].
        simpl. rewrite length_app. simpl. lia.
      + destruct (wf_getSpotifyPlayer token w2 Hw2) as [Hwf Hp].
        destruct (getSpotifyPlayer token w2) as [p w3]. simpl in *.
        by apply wf_set_tokenAndPromise. }
  destruct (tokenAndPromise w1) as [[t [p|]]|]; try done.
  - by apply wf_promise_then.
  - by apply (wf_frame w1).
Qed.

Lemma wf_cleanup w : well_formed w → well_formed (cleanup w).
Proof.
  intros Hw. unfold cleanup. apply foldl_invariant; [done|].
  intros w' event Hw'. destruct (window_spotifyPlayer w'); [|done].
  by apply wf_removeListener.
Qed.

Lemma wf_sdkReady w : well_formed w → well_formed (sdkReady w).
Proof.
  intros Hw. unfold sdkReady.
  destruct (onSpotifyWebPlaybackSDKReady w) as [[token p]|]; [|done].
  destruct (wf_wrapSpotifyPlayer false token
              (log (NewSpotifyPlayer (length (players w)) token) w))
    as (Hwf & Hid & Hlen); [by apply wf_log|].
  destruct (wrapSpotifyPlayer false token _) as [wp w1]. simpl in *.
  apply wf_resolve; [lia|done].
Qed.

Lemma wf_onPlayerStateChanged_body state w :
  well_formed w → well_formed (onPlayerStateChanged_body state w).
Proof.
  intros Hw. unfold onPlayerStateChanged_body. apply wf_setStatus.
  destruct state; [|by apply wf_setState].
  apply (wf_setPlayer_window (setState _ w)). by apply wf_setState.
Qed.

Lemma wf_thenCallback_resume wp ok w :
  wp < length (players w) →
  well_formed w → well_formed (thenCallback_resume wp ok w).
Proof.
  intros Hwp Hw. unfold thenCallback_resume.
  destruct ok; simpl; [|by apply wf_setStatus].
  do 6 apply wf_addListener.
  apply wf_await; [by intros h [= <-]|]. apply wf_log. by apply wf_set_window.
Qed.

Lemma wf_foldl_log {B} (c : B → Call) (l : list B) (w : World) :
  well_formed w → well_formed (foldl (λ w x, log (c x) w) w l).
Proof. intros Hw. rewrite PlayerFacts.foldl_log. by apply (wf_frame w). Qed.

Lemma wf_settle i r w : well_formed w → well_formed (settle i r w).
Proof.
  intros Hw. unfold settle. destruct (pending w !! i) as [k|] eqn:Hk; [|done].
  pose proof (wf_delete_pending i w Hw) as Hw'.
  destruct k, r; try done;
    try (by apply (wf_frame (set_pending (delete i (pending w)) w))).
  - assert (Hwp : wp < length (players w)).
    { by apply (proj1 (Forall_lookup _ _) (wf_pending _ Hw) i _ Hk). }
    apply wf_thenCallback_resume.
    + destruct b; [|done]. unfold update_player. simpl. by rewrite length_alter.
    + destruct b; [|done]. by apply wf_update_player.
  - by apply wf_onPlayerStateChanged_body.
  - simpl. unfold call_onTickCallbacks. by apply wf_foldl_log.
  - unfold tick_resume. destruct (position <$> state); [|done].
    unfold call_onTickCallbacks. by apply wf_foldl_log.
  - destruct state; [|done]. by apply wf_log.
Qed.

Lemma wf_run_listener h ev w l :
  well_formed w → well_formed (run_listener h ev w l).
Proof.
  intros Hw. destruct l; simpl; try by apply wf_setStatus.
  - unfold run_stateChangeCallback. destruct (event_state ev); [|done].
    apply wf_foldl_log. by apply wf_log.
  - by apply wf_onPlayerStateChanged_body.
  - apply wf_setStatus. by apply wf_log.
Qed.

Lemma wf_step w s : well_formed w → well_formed (step w s).
Proof.
  intros Hw. destruct s; simpl.
  - unfold useEffect. destruct token as [token|]; [|done].
    case_bool_decide; [done|]. by apply wf_effect_body.
  - by apply wf_cleanup.
  - by apply wf_sdkReady.
  - by apply wf_settle.
  - unfold emit. apply foldl_invariant; [done|].
    intros w' l. apply wf_run_listener.
  - apply wf_await; [done|]. by apply wf_log.
  - by apply wf_disconnect.
  - unfold seekTo. apply wf_await; [done|]. by apply wf_log.
  - by apply wf_log.
  - unfold getCurrentTime. apply wf_await; [done|]. by apply wf_log.
  - unfold addOnTick. apply wf_update_player.
    apply wf_await; [done|]. by apply wf_log.
  - by apply wf_update_player.
Qed.

Lemma wf_init : well_formed init.
Proof. constructor; simpl; try done; by constructor. Qed.

Lemma wf_run steps : well_formed (run init steps).
Proof.
  unfold run. apply foldl_invariant; [apply wf_init|].
  intros w s. apply wf_step.
Qed.

(** The listeners of a player after a successful [connect]. *)
Lemma listeners_after_connect w i wp :
  pending w !! i = Some (KConnect wp) → wp < length (players w) →
  listeners_of wp (settle i (RBool true) w)
  = listeners_of wp w ++ hook_listeners.
Proof.
  intros Hi Hwp. unfold settle. rewrite Hi. simpl.
  unfold thenCallback_resume. simpl.
  rewrite !HookFacts.listeners_of_addListener. simpl.
  rewrite !length_alter. rewrite !bool_decide_eq_true_2 by done.
  rewrite <- !app_assoc. f_equal.
  unfold listeners_of, player_of, update_player. simpl.
  rewrite list_lookup_alter_eq. by destruct (players w !! wp).
Qed.

(** [playbackCallbacks] is created empty and no code adds to it. *)
Lemma playbackCallbacks_update h f w :
  (∀ p, playbackCallbacks (f p) = playbackCallbacks p) →
  Forall (λ p, playbackCallbacks p = []) (players w) →
  Forall (λ p, playbackCallbacks p = []) (players (update_player h f w)).
Proof.
  intros Hf Hw. unfold update_player. simpl.
  apply Forall_alter; [done|]. intros p _ Hp. by rewrite Hf.
Qed.

Lemma playbackCallbacks_step w s :
  Forall (λ p, playbackCallbacks p = []) (players w) →
  Forall (λ p, playbackCallbacks p = []) (players (step w s)).
Proof.
  intros Hw. destruct s; simpl; try done.
  - unfold useEffect. destruct token as [token|]; [|done].
    case_bool_decide; [done|]. unfold effect_body.
    set (w1 := if window_player_with token w is Some wp then _ else _).
    assert (Hw1 : Forall (λ p, playbackCallbacks p = []) (players w1)).
    { subst w1. destruct (window_player_with token w); [done|].
      destruct (cache_miss token w); [|done].
      set (w2 := match window_spotifyPlayer w with Some h => _ | None => _ end).
      assert (Hw2 : Forall (λ p, playbackCallbacks p = []) (players w2)).
      { subst w2. destruct (window_spotifyPlayer w); [|done].
        by apply playbackCallbacks_update. }
      case_bool_decide.
      - simpl. apply Forall_alter; [|done].
        apply Forall_app_2; [done|]. by repeat constructor.
      - pose proof (HookFacts.players_getSpotifyPlayer token w2) as Hp.
        destruct (getSpotifyPlayer token w2) as [p w3]. simpl in *.
        by rewrite Hp. }
    destruct (tokenAndPromise w1) as [[t [p|]]|]; try done.
    by rewrite HookFacts.players_promise_then.
  - unfold cleanup. apply foldl_invariant; [done|].
    intros w' event Hw'. destruct (window_spotifyPlayer w'); [|done].
    by apply playbackCallbacks_update.
  - unfold sdkReady.
    destruct (onSpotifyWebPlaybackSDKReady w) as [[token p]|]; [|done].
    simpl. rewrite HookFacts.players_resolve. simpl.
    apply Forall_alter; [|done].
    apply Forall_app_2; [done|]. by repeat constructor.
  - unfold settle. destruct (pending w !! i) as [k|]; [|done].
    destruct k, r; try done.
    + unfold thenCallback_resume. destruct b; simpl; [|done].
      do 6 (apply Forall_alter; [|done]). by apply Forall_alter.
    + unfold onPlayerStateChanged_body. by destruct state.
    + simpl. by rewrite HookFacts.players_call_onTickCallbacks.
    + unfold tick_resume. destruct (position <$> state); [|done].
      by rewrite HookFacts.players_call_onTickCallbacks.
    + by destruct state.
  - by rewrite HookFacts.players_emit.
  - by apply playbackCallbacks_update.
  - by apply playbackCallbacks_update.
  - by apply playbackCallbacks_update.
Qed.

End WellFormedFacts.

(** Whatever has happened since the page was loaded, the hook holds no
    dangling reference: [window.spotifyPlayer], the player atom, the
    value of every resolved promise and the player of every outstanding
    [connect] are players that were constructed, and the cached promise
    and the one the SDK-ready handler resolves exist. *)
Theorem hook_references_never_dangle (steps : list Player.Step) :
  PlayerLaws.well_formed (Player.run Player.init steps).
Proof. apply WellFormedFacts.wf_run. Qed.

(** In every run, when an outstanding [connect] resolves to true the
    player is connected, it becomes [window.spotifyPlayer], a state query
    is issued, and the six listeners of the hook are appended to the
    listeners the player already has. *)
Theorem connect_success_registers
    (steps : list Player.Step) (i : nat) (wp : nat) :
  let w := Player.run Player.init steps in
  Player.pending w !! i = Some (Player.KConnect wp) →
  let w' := Player.settle i (RBool true) w in
  Player.is_connected wp w' = true
  ∧ Player.window_spotifyPlayer w' = Some wp
  ∧ Player.listeners_of wp w'
    = Player.listeners_of wp w ++ PlayerSpec.hook_listeners
  ∧ PlayerSpec.hook_listening wp w'
  ∧ Player.KInitialState wp ∈ Player.pending w'.
Proof.
  intros w Hi w'. subst w'.
  pose proof (WellFormedFacts.wf_run steps) as Hw. fold w in Hw.
  assert (Hwp : wp < length (Player.players w)).
  { by apply (proj1 (Forall_lookup _ _) (PlayerLaws.wf_pending _ Hw) i _ Hi). }
  destruct (HookFacts.connect_registers w i wp Hi Hwp) as (Hl & Hc & Hwin).
  do 2 (split; [done|]).
  split; [by apply WellFormedFacts.listeners_after_connect|].
  split; [done|].
  unfold Player.settle. rewrite Hi. simpl. apply elem_of_app. right.
  by apply list_elem_of_singleton.
Qed.

Lemma connect_success_registers_witness :
  Player.window_spotifyPlayer
    (Player.settle 0 (RBool true)
       (Player.run Player.init PlayerSpec.connecting_steps)) = Some 0.
Proof.
  assert (Hpending :
            Player.pending (Player.run Player.init PlayerSpec.connecting_steps)
            !! 0 = Some (Player.KConnect 0)) by (by vm_compute).
  exact (proj1 (proj2 (connect_success_registers
                         PlayerSpec.connecting_steps 0 0 Hpending))).
Defined.

(** The teardown removes nothing, so listeners pile up: a player whose
    [connect] succeeds again after a teardown carries the six listeners of
    the hook once more, on top of all it had before the teardown. *)
Theorem listeners_accumulate_across_remounts
    (steps : list Player.Step) (i : nat) (wp : nat) :
  let w := Player.run Player.init steps in
  Player.pending (Player.cleanup w) !! i = Some (Player.KConnect wp) →
  Player.listeners_of wp (Player.settle i (RBool true) (Player.cleanup w))
  = Player.listeners_of wp w ++ PlayerSpec.hook_listeners.
Proof.
  intros w Hi.
  pose proof (WellFormedFacts.wf_run (steps ++ [Player.Cleanup])) as Hw.
  unfold Player.run in Hw. rewrite foldl_app in Hw. simpl in Hw.
  fold (Player.run Player.init steps) in Hw. fold w in Hw.
  assert (Hwp : wp < length (Player.players (Player.cleanup w))).
  { by apply (proj1 (Forall_lookup _ _) (PlayerLaws.wf_pending _ Hw) i _ Hi). }
  rewrite WellFormedFacts.listeners_after_connect by done.
  f_equal. apply HookLaws.listeners_of_players.
  apply HookFacts.cleanup_players, HookFacts.named_run.
Qed.

Lemma listeners_accumulate_across_remounts_witness :
  length
    (Player.listeners_of 0
       (Player.settle 1 (RBool true)
          (Player.cleanup
             (Player.run Player.init
                (PlayerSpec.abc_steps ++ [Player.Effect (Some "abc")])))))
  = 13.
Proof.
  assert (Hpending :
            Player.pending
              (Player.cleanup
                 (Player.run Player.init
                    (PlayerSpec.abc_steps ++ [Player.Effect (Some "abc")])))
            !! 1 = Some (Player.KConnect 0)) by (by vm_compute).
  rewrite (listeners_accumulate_across_remounts
             (PlayerSpec.abc_steps ++ [Player.Effect (Some "abc")]) 1 0 Hpending).
  by vm_compute.
Defined.

(** No step ever puts a callback into [playbackCallbacks]: in every run
    the array of every player is empty, so the loop over it in
    [stateChangeCallback] calls nothing and a state change reaches the
    outside of the wrapper only through [playbackListenerForTick]. *)
Theorem playbackCallbacks_stay_empty
    (steps : list Player.Step) (h : nat) (state : PlaybackState) :
  let w := Player.run Player.init steps in
  Player.playbackCallbacks_of h w = []
  ∧ Player.trace (Player.run_stateChangeCallback h (Some state) w)
    = Player.trace w ++ [Player.PlaybackListenerForTick h (paused state)].
Proof.
  intros w.
  assert (Hall : Forall (λ p, Player.playbackCallbacks p = [])
                   (Player.players w)).
  { subst w. unfold Player.run. apply foldl_invariant; [by constructor|].
    intros w' s. apply WellFormedFacts.playbackCallbacks_step. }
  assert (He : Player.playbackCallbacks_of h w = []).
  { unfold Player.playbackCallbacks_of, Player.player_of.
    destruct (Player.players w !! h) as [p|] eqn:Hp; [|done].
    by apply (proj1 (Forall_lookup _ _) Hall h p Hp). }
  split; [done|].
  unfold Player.run_stateChangeCallback, for_of_values.
  change (Player.playbackCallbacks_of h
            (Player.log (Player.PlaybackListenerForTick h (paused state)) w))
    with (Player.playbackCallbacks_of h w).
  by rewrite He.
Qed.

(** ** Remounting before the SDK is ready *)

Module RemountFacts.
Import Player PlayerSpec PlayerLaws.

Section Token.
Variable token : Token.
Hypothesis token_not_empty : token ≠ "".
Hypothesis token_not_fake : token ≠ "fake".

Lemma effect_on_fresh_page :
  useEffect (Some token) init = awaiting_sdk token 1.
Proof using token_not_empty token_not_fake.
  unfold useEffect, effect_body. rewrite bool_decide_eq_false_2 by done.
  simpl. by rewrite bool_decide_eq_false_2 by done.
Qed.

Lemma effect_while_awaiting (k : nat) :
  useEffect (Some token) (awaiting_sdk token k) = awaiting_sdk token (S k).
Proof using token_not_empty.
  unfold useEffect. rewrite bool_decide_eq_false_2 by done.
  rewrite (ObtainFacts.effect_body_hit token 0) by done.
  unfold promise_then, awaiting_sdk. simpl.
  by rewrite replicate_cons_app.
Qed.

Lemma cleanup_while_awaiting (k : nat) :
  cleanup (awaiting_sdk token k) = awaiting_sdk token k.
Proof. done. Qed.

Lemma remounts_0 : remounts token 0 = [Effect (Some token)].
Proof. done. Qed.

Lemma remounts_S (k : nat) :
  remounts token (S k) = Effect (Some token) :: Cleanup :: remounts token k.
Proof. done. Qed.

Lemma run_mount_unmount (w : World) (steps : list Step) :
  run w (Effect (Some token) :: Cleanup :: steps)
  = run (cleanup (useEffect (Some token) w)) steps.
Proof. done. Qed.

Lemma run_mount (w : World) :
  run w [Effect (Some token)] = useEffect (Some token) w.
Proof. done. Qed.

Lemma remounts_while_awaiting (k j : nat) :
  run (awaiting_sdk token j) (remounts token k)
  = awaiting_sdk token (j + S k).
Proof using token_not_empty.
  revert j. induction k as [|k IH]; intros j.
  - rewrite remounts_0, run_mount, effect_while_awaiting. f_equal. lia.
  - rewrite remounts_S, run_mount_unmount, effect_while_awaiting,
      cleanup_while_awaiting, IH. f_equal. lia.
Qed.

Lemma remounts_on_fresh_page (k : nat) :
  run init (remounts token k) = awaiting_sdk token (S k).
Proof using token_not_empty token_not_fake.
  destruct k as [|k].
  - rewrite remounts_0, run_mount. apply effect_on_fresh_page.
  - rewrite remounts_S, run_mount_unmount, effect_on_fresh_page,
      cleanup_while_awaiting.
    apply (remounts_while_awaiting k 1).
Qed.

End Token.

(** Every callback waiting on the promise calls [connect]. *)
Lemma foldl_thenCallback (wp : nat) (n : nat) (w : World) :
  players (foldl (λ w (_ : ()), thenCallback wp w) w (replicate n ()))
  = players w
  ∧ pending (foldl (λ w (_ : ()), thenCallback wp w) w (replicate n ()))
    = pending w ++ replicate n (KConnect wp)
  ∧ trace (foldl (λ w (_ : ()), thenCallback wp w) w (replicate n ()))
    = trace w ++ replicate n (Connect wp).
Proof.
  revert w. induction n as [|n IH]; intros w; simpl.
  - by rewrite !app_nil_r.
  - destruct (IH (thenCallback wp w)) as (-> & -> & ->). simpl.
    by rewrite <- !app_assoc.
Qed.

End RemountFacts.

(** Mounting, unmounting and mounting again before the SDK has signalled
    shares one construction: after any number of such rounds for one
    token the page holds one script and one pending promise, and the
    SDK-ready signal constructs a single player, on which [connect] is
    called once for every effect run. *)
Theorem remounts_share_one_player (token : Token) (k : nat) :
  token ≠ "" → token ≠ "fake" →
  let w := Player.run Player.init (PlayerLaws.remounts token k) in
  w = PlayerLaws.awaiting_sdk token (S k)
  ∧ Player.players (Player.sdkReady w)
    = [ {| Player.authToken := token; Player.fake := false;
           Player.connected := false;
           Player.listeners :=
             [("player_state_changed", Player.stateChangeCallback)];
           Player.playbackCallbacks := []; Player.onTickCallbacks := [] |} ]
  ∧ Player.pending (Player.sdkReady w) = replicate (S k) (Player.KConnect 0)
  ∧ Player.trace (Player.sdkReady w)
    = [ Player.AppendScript PlayerLaws.sdk_script;
        Player.NewSpotifyPlayer 0 token;
        Player.AddListener 0 "player_state_changed" Player.stateChangeCallback ]
      ++ replicate (S k) (Player.Connect 0).
Proof.
  intros Hne Hnf w. subst w.
  rewrite RemountFacts.remounts_on_fresh_page by done.
  split; [done|].
  unfold Player.sdkReady, PlayerLaws.awaiting_sdk. cbn [Player.onSpotifyWebPlaybackSDKReady].
  unfold Player.wrapSpotifyPlayer, Player.resolve. simpl.
  destruct (RemountFacts.foldl_thenCallback 0 k
              (Player.thenCallback 0
                 {| Player.document := [PlayerLaws.sdk_script];
                    Player.onSpotifyWebPlaybackSDKReady := Some (token, 0);
                    Player.promises := [{| settled := Some 0; waiting := [] |}];
                    Player.players :=
                      [ {| Player.authToken := token; Player.fake := false;
                           Player.connected := false;
                           Player.listeners :=
                             [("player_state_changed", Player.stateChangeCallback)];
                           Player.playbackCallbacks := [];
                           Player.onTickCallbacks := [] |} ];
                    Player.window_spotifyPlayer := None;
                    Player.tokenAndPromise := Some (token, Some 0);
                    Player.spotifyPlayerAtom := None;
                    Player.playerStatusAtom := LOADING;
                    Player.playbackStateAtom := None;
                    Player.pending := []; Player.uncaught := [];
                    Player.trace :=
                      [ Player.AppendScript PlayerLaws.sdk_script;
                        Player.NewSpotifyPlayer 0 token;
                        Player.AddListener 0 "player_state_changed"
                          Player.stateChangeCallback ] |}))
    as (Hp & Hk & Ht).
  split; [exact Hp|]. split; [exact Hk|exact Ht].
Qed.

Lemma remounts_share_one_player_witness :
  length
    (Player.players
       (Player.sdkReady
          (Player.run Player.init (PlayerLaws.remounts "abc" 2)))) = 1
  ∧ Player.pending
      (Player.sdkReady (Player.run Player.init (PlayerLaws.remounts "abc" 2)))
    = replicate 3 (Player.KConnect 0).
Proof.
  assert (Hne : "abc" ≠ "") by done.
  assert (Hnf : "abc" ≠ "fake") by done.
  pose proof (remounts_share_one_player "abc" 2 Hne Hnf) as H. cbv zeta in H.
  destruct H as (_ & Hp & Hk & _).
  split; [by rewrite Hp|exact Hk].
Defined.

(** ** The earlier source: whose timer it is, and how many scripts *)

Module LegacyTimerLaws.
Import Legacy LegacySpec.

Lemma run_mainCallback_timers (h : nat) (state : PlaybackState) (w : World) :
  timers (run_mainCallback h (Some state) w)
  = timers
      (if negb (paused state) then
         match tickIntervalId w with
         | None => set_tickIntervalId (Some (next_interval w)) (setInterval h w).2
         | Some _ => w
         end
       else
         match tickIntervalId w with
         | Some id => set_tickIntervalId None (clearInterval id w)
         | None => w
         end).
Proof.
  unfold run_mainCallback, for_of_values. rewrite LegacyFacts.legacy_foldl_log.
  by destruct (paused state), (tickIntervalId w).
Qed.

End LegacyTimerLaws.

(** The tick timer belongs to the player whose state change started it:
    with no timer running, an unpaused state of player [h] starts one
    that queries [h]; while it runs, an unpaused state of any player
    changes nothing, so the timer goes on querying the player that
    started it; and a paused state of any player stops it. *)
Theorem legacy_timer_keeps_its_player
    (w : Legacy.World) (h : nat) (state : PlaybackState) :
  LegacySpec.timer_consistent w →
  let w' := Legacy.run_mainCallback h (Some state) w in
  (Legacy.tickIntervalId w = None → paused state = false →
   Legacy.intervals w' = [(Legacy.next_interval w, h)]
   ∧ Legacy.tickIntervalId w' = Some (Legacy.next_interval w))
  ∧ (∀ id h0,
       Legacy.tickIntervalId w = Some id → Legacy.intervals w = [(id, h0)] →
       paused state = false →
       Legacy.intervals w' = [(id, h0)]
       ∧ Legacy.tickIntervalId w' = Some id
       ∧ Legacy.trace (Legacy.interval_fires id w')
         = Legacy.trace w' ++ [Legacy.GetCurrentState h0])
  ∧ (∀ id,
       Legacy.tickIntervalId w = Some id → paused state = true →
       Legacy.intervals w' = []
       ∧ Legacy.tickIntervalId w' = None).
Proof.
  intros Hc w'.
  pose proof (LegacyTimerLaws.run_mainCallback_timers h state w) as Ht.
  fold w' in Ht. unfold LegacySpec.timers in Ht.
  split; [|split].
  - intros Hid Hp. rewrite Hid, Hp in Ht. simpl in Ht.
    rewrite (TimerFacts.consistent_None _ Hc Hid) in Ht.
    injection Ht as Hid' Hint. by rewrite Hid', Hint.
  - intros id h0 Hid Hint Hp. rewrite Hid, Hp in Ht. simpl in Ht.
    injection Ht as Hid' Hint'. rewrite Hid', Hint', Hint.
    do 2 (split; [done|]).
    unfold Legacy.interval_fires. rewrite Hint', Hint.
    rewrite filter_cons, filter_nil. by rewrite decide_True by done.
  - intros id Hid Hp. rewrite Hid, Hp in Ht. simpl in Ht.
    destruct (TimerFacts.consistent_Some _ _ Hc Hid) as [h0 Hint].
    rewrite Hint in Ht. rewrite filter_cons, filter_nil in Ht. simpl in Ht.
    rewrite decide_False in Ht by auto.
    injection Ht as Hid' Hint'. by rewrite Hid', Hint'.
Qed.

Lemma legacy_timer_keeps_its_player_witness :
  Legacy.intervals
    (Legacy.run_mainCallback 1 (Some LegacySpec.playing)
       (Legacy.run_mainCallback 0 (Some LegacySpec.playing) Legacy.init))
  = [(1, 0)].
Proof.
  assert (Hc : LegacySpec.timer_consistent
                 (Legacy.run_mainCallback 0 (Some LegacySpec.playing) Legacy.init))
    by (by vm_compute).
  refine (proj1 (proj1 (proj2 (legacy_timer_keeps_its_player
            (Legacy.run_mainCallback 0 (Some LegacySpec.playing) Legacy.init)
            1 LegacySpec.playing Hc)) 1 0 _ _ _)); by vm_compute.
Defined.

(** The earlier [getSpotifyPlayer] appends one more SDK script for every
    call: after a call per token the document holds as many more scripts
    as there were tokens, none of them with the identifier. *)
Theorem legacy_script_per_construction
    (tokens : list Legacy.TokenValue) (w : Legacy.World) :
  count_src SDK_SRC (Legacy.document (LegacyLaws.construct_all tokens w))
  = count_src SDK_SRC (Legacy.document w) + length tokens
  ∧ count_id SPOTIFY_SCRIPT_ID
      (Legacy.document (LegacyLaws.construct_all tokens w))
    = count_id SPOTIFY_SCRIPT_ID (Legacy.document w).
Proof.
  revert w. induction tokens as [|token tokens IH]; intros w.
  - simpl. split; [lia|done].
  - change (LegacyLaws.construct_all (token :: tokens) w)
      with (LegacyLaws.construct_all tokens (Legacy.getSpotifyPlayer token w).2).
    destruct (IH (Legacy.getSpotifyPlayer token w).2) as [-> ->].
    destruct (LegacyDifferences.legacy_getSpotifyPlayer_appends token w)
      as [-> ->].
    cbn [length]. split; [lia|done].
Qed.

(** A state subscriber of the earlier wrapper is told the current state
    as soon as the query issued on subscribing is answered with one, and
    from then on every state change that carries a state reaches every
    subscriber once, in registration order, after the timer has been
    dealt with; a null state reaches nobody. *)
Theorem legacy_state_subscribers
    (w : Legacy.World) (h : nat) (cb : Callback) (state : PlaybackState) :
  let w1 := Legacy.addOnStateChange h cb w in
  Legacy.playerStateCallbacks w1 = Legacy.playerStateCallbacks w ++ [cb]
  ∧ Legacy.trace
      (Legacy.settle (length (Legacy.pending w)) (RState (Some state)) w1)
    = Legacy.trace w ++ [Legacy.GetCurrentState h;
                         Legacy.PlayerStateCallback cb state]
  ∧ Legacy.trace (Legacy.settle (length (Legacy.pending w)) (RState None) w1)
    = Legacy.trace w ++ [Legacy.GetCurrentState h]
  ∧ (∃ timer_calls,
       Legacy.trace (Legacy.run_mainCallback h (Some state) w)
       = Legacy.trace w ++ timer_calls
         ++ ((λ cb, Legacy.PlayerStateCallback cb state)
               <$> Legacy.playerStateCallbacks w)
       ∧ length timer_calls ≤ 1)
  ∧ Legacy.run_mainCallback h None w = w.
Proof.
  intros w1. subst w1.
  assert (Hk : (Legacy.pending w ++ [Legacy.KAddOnStateChange h cb])
               !! length (Legacy.pending w)
               = Some (Legacy.KAddOnStateChange h cb))
    by by apply list_lookup_middle.
  split; [done|]. split; [|split; [|split; [|done]]].
  - unfold Legacy.settle, Legacy.addOnStateChange. simpl. rewrite Hk. simpl.
    by rewrite <- app_assoc.
  - unfold Legacy.settle, Legacy.addOnStateChange. simpl. by rewrite Hk.
  - unfold Legacy.run_mainCallback, for_of_values.
    rewrite LegacyFacts.legacy_foldl_log.
    destruct (paused state), (Legacy.tickIntervalId w) as [id|]; simpl.
    + exists [Legacy.ClearInterval id]. by rewrite <- app_assoc.
    + exists []. by split; [|simpl; lia].
    + exists []. by split; [|simpl; lia].
    + exists [Legacy.SetInterval (Legacy.next_interval w) h].
      by rewrite <- app_assoc.
Qed.

(** A player in [window] that carries the requested token is used again
    whatever the cache holds: nothing is constructed, disconnected or
    injected, the cache is set to a fresh promise resolved to that player,
    and [connect] is called on it once more. *)
Theorem window_player_reused (w : Player.World) (token : Token) (h0 : nat) :
  token ≠ "" →
  Player.window_player_with token w = Some h0 →
  let w' := Player.useEffect (Some token) w in
  Player.players w' = Player.players w
  ∧ Player.document w' = Player.document w
  ∧ Player.tokenAndPromise w'
    = Some (token, Some (length (Player.promises w)))
  ∧ Player.promises w'
    = Player.promises w ++ [{| settled := Some h0; waiting := [] |}]
  ∧ Player.trace w' = Player.trace w ++ [Player.Connect h0]
  ∧ Player.pending w' = Player.pending w ++ [Player.KConnect h0].
Proof.
  intros Ht Hwin w'. subst w'. unfold Player.useEffect.
  rewrite bool_decide_eq_false_2 by done.
  by rewrite (ObtainFacts.effect_body_window _ h0).
Qed.

Lemma window_player_reused_witness :
  Player.trace (Player.useEffect (Some "abc") PlayerLaws.switched_away)
  = Player.trace PlayerLaws.switched_away ++ [Player.Connect 0]
  ∧ Player.tokenAndPromise PlayerLaws.switched_away = Some ("def", Some 1).
Proof.
  assert (Ht : "abc" ≠ "") by done.
  assert (Hwin : Player.window_player_with "abc" PlayerLaws.switched_away
                 = Some 0) by (by vm_compute).
  pose proof (window_player_reused PlayerLaws.switched_away "abc" 0 Ht Hwin) as H.
  cbv zeta in H. destruct H as (_ & _ & _ & _ & Htr & _).
  split; [exact Htr|by vm_compute].
Defined.

Lemma header_save_name_has_no_space_witness :
  ∃ name,
    Header.handleSaveCSV (λ s, s) "my song" = [Header.saveToCSV name]
    ∧ (Header.space ∉ String.list_ascii_of_string name).
Proof.
  destruct (header_save_name_has_no_space (λ s, s) "my song")
    as (name & Hsave & Hspace & _).
  exists name. by split.
Defined.
